(** * ntil: retry with exponential backoff, embedded from [src/ntil.js]

    The development follows the source file top to bottom:

    - JavaScript numbers, as the binary64 doubles they are, with the
      rounding multiplication and the comparison of IEEE 754;
    - JavaScript values, [typeof], truthiness, [||] and property reads, as far
      as [ntil] uses them;
    - the builder objects made by [new chain(checker, opts)], kept in a store
      so that the setters can return the very object they were called on;
    - the constructor [ntil], which throws, returns a builder, or returns a
      handler closure;
    - the body of the handler: the per-invocation variables [wait] and
      [calls], the completion callback [next], and [invoke];
    - the host's event loop, reduced to what the handler meets: pending
      timers that fire and completions that arrive later.

    The settings [waitSecs], [waitMult] and [maxCalls], the variable [wait]
    and the delays handed to [setTimeout] are doubles: fractions, rounding,
    underflow, infinities and NaN are those of the code. The variable
    [calls] counts from 0 by steps of 1; it is kept as an integer, which
    is what the double holds up to 2^53, and is converted to a double where
    the code compares it with [maxCalls]. The checker is a function of the
    result values; the checker, the success and failure callbacks and the
    logger's [info] and [warn] return normally, so that the only exception
    the engine meets is one raised by the performer itself. *)

From Stdlib Require Import ZArith Lia.
From Stdlib Require DecimalString.
From Stdlib Require Import SpecFloat.
From stdpp Require Import base list strings.

Local Open Scope Z_scope.

(** ** Numbers *)

(** A JavaScript number: a binary64 double, in the Standard Library's
    specification of IEEE 754 (53 bits of precision, exponents up to
    1024). *)
Definition num := spec_float.

(** [x * y], rounded to the nearest double, ties to even. *)
Definition mul : num -> num -> num := SFmul 53 1024.

(** [x < y]; false when either is NaN. *)
Definition lt : num -> num -> bool := SFltb.

(** The 53-bit mantissa of a positive integer: its binary digits shifted
    so that the leading one is bit 52 (digits beyond the 53rd dropped). *)
Definition mantissa (a : Z) : Z := Z.shiftl a (52 - Z.log2 a).

(** The double of an integer; exact for magnitudes up to 2^53, as are the
    literals of the source and the counter [calls] over its first 2^53
    steps. *)
Definition int (z : Z) : num :=
  match z with
  | Z0 => S754_zero false
  | Zpos p =>
      S754_finite false (Z.to_pos (mantissa (Zpos p))) (Z.log2 (Zpos p) - 52)
  | Zneg p =>
      S754_finite true (Z.to_pos (mantissa (Zpos p))) (Z.log2 (Zpos p) - 52)
  end.

(** [calls < maxCalls], for the integer that [calls] holds. *)
Definition below (c : Z) (m : num) : bool := lt (int c) m.

(** The integer a double stands for, when it stands for one. *)
Definition whole (x : num) : option Z :=
  match x with
  | S754_zero _ => Some 0
  | S754_finite s m e =>
      let v := if 0 <=? e then Zpos m * 2 ^ e
               else if Zpos m mod 2 ^ (- e) =? 0 then Zpos m / 2 ^ (- e) else -1 in
      if v <? 0 then None else Some (if s then - v else v)
  | _ => None
  end.

(** One tenth, as the source text [0.1] denotes it: the double nearest
    to 1/10. *)
Definition tenth : num := SFdiv 53 1024 (int 1) (int 10).

(** [w], multiplied [j] times by [m]: the value of [wait] after [j]
    executions of [wait *= waitMult], each product rounded. *)
Definition waits (w m : num) (j : nat) : num := Nat.iter j (fun x => mul x m) w.

(** The order of the doubles that are not NaN, read off their sign,
    exponent and mantissa. *)
Definition key (x : num) : Z * Z * Z :=
  match x with
  | S754_zero _ => (0, 0, 0)
  | S754_infinity s => (if s then -2 else 2, 0, 0)
  | S754_nan => (0, 0, 0)
  | S754_finite s m e => if s then (-1, - e, - Zpos m) else (1, e, Zpos m)
  end.

Definition is_nan (x : num) : bool :=
  match x with S754_nan => true | _ => false end.

Definition lex_lt (a b : Z * Z * Z) : Prop :=
  a.1.1 < b.1.1 \/
  (a.1.1 = b.1.1 /\ (a.1.2 < b.1.2 \/ (a.1.2 = b.1.2 /\ a.2 < b.2))).

Definition lex_le (a b : Z * Z * Z) : Prop := lex_lt a b \/ a = b.

(** ** Values *)

(** A function object: its declared [name] and an identity that tells two
    functions of the same name apart. *)
Record func := Func { fname : string; fid : nat }.

#[warnings="-register-all"]
Inductive value :=
| VUndefined
| VNull
| VBool (b : bool)
| VNum (n : num)
| VStr (s : string)
| VFun (f : func)
| VObj (props : list (string * value)).

(** [typeof v] *)
Definition typeof (v : value) : string :=
  match v with
  | VUndefined => "undefined"
  | VNull => "object"
  | VBool _ => "boolean"
  | VNum _ => "number"
  | VStr _ => "string"
  | VFun _ => "function"
  | VObj _ => "object"
  end.

(** ToBoolean of a number: [0], [-0] and [NaN] are falsy. *)
Definition nonzero (x : num) : bool :=
  match x with
  | S754_zero _ | S754_nan => false
  | _ => true
  end.

(** ToBoolean: [undefined], [null], [false], [0], [-0], [NaN] and the empty
    string are falsy; every function and object is truthy. *)
Definition truthy (v : value) : bool :=
  match v with
  | VUndefined | VNull => false
  | VBool b => b
  | VNum n => nonzero n
  | VStr s => negb (String.eqb s "")
  | VFun _ | VObj _ => true
  end.

(** [a || b] *)
Definition js_or (a b : value) : value := if truthy a then a else b.

(** The own properties of an object literal, most recent binding first. *)
Fixpoint lookup_prop (k : string) (props : list (string * value)) : value :=
  match props with
  | [] => VUndefined
  | (k', v) :: rest => if String.eqb k k' then v else lookup_prop k rest
  end.

(** [v.k] for the keys the source reads ([name], [logger], [waitSecs],
    [waitMult], [maxCalls]): an object gives its property, a function has a
    [name], and a number, string or boolean has none of them. The source
    never reads a property of [undefined] or [null]. *)
Definition get (v : value) (k : string) : value :=
  match v with
  | VObj props => lookup_prop k props
  | VFun f => if String.eqb k "name" then VStr (fname f) else VUndefined
  | _ => VUndefined
  end.

(** [v === true] *)
Definition is_true (v : value) : bool :=
  match v with
  | VBool true => true
  | _ => false
  end.

Definition is_function (v : value) : bool := String.eqb (typeof v) "function".

(** ** Builders and the constructor *)

Definition sig : string :=
  "Check params: function ntil(checker, performer, success, failure, opts)".

(** The state of one object made by [new chain(checker, opts)]: the two
    variables its methods close over, and the three properties the setters
    assign ([undefined] until assigned). *)
Record chain := MkChain {
  chain_checker : value;
  chain_opts : value;
  chain_perform : value;
  chain_success : value;
  chain_failure : value
}.

(** The store of builder objects; a reference is an index into it. *)
Definition heap := list chain.
Definition ref := nat.

(** What the handler closes over once [ntil] has resolved its options. *)
Record closure := Closure {
  cl_checker : value;
  cl_performer : value;
  cl_success : value;
  cl_failure : value;
  cl_name : value;
  cl_logger : value;
  cl_waitSecs : value;
  cl_waitMult : value;
  cl_maxCalls : value
}.

Inductive result :=
| Thrown (e : value)
| Builder (b : ref)
| Handler (h : closure).

(** [new chain(checker, opts)] *)
Definition new_chain (checker opts : value) (h : heap) : heap * result :=
  (h ++ [MkChain checker opts VUndefined VUndefined VUndefined], Builder (length h)).

Definition ntil (checker performer success failure opts : value) (h : heap)
  : heap * result :=
  let opts := js_or opts (VObj []) in
  if negb (is_function checker) then (h, Thrown (VStr sig))
  else if negb (is_function performer) then new_chain checker performer h
  else
    let name := js_or (get opts "name")
                  (js_or (get performer "name") (VStr "anonymous function")) in
    let logger := get opts "logger" in
    let waitSecs := js_or (get opts "waitSecs") (VNum (int 1)) in
    let waitMult := js_or (get opts "waitMult") (VNum (int 2)) in
    let maxCalls := js_or (get opts "maxCalls") (VNum (int 7)) in
    (h, Handler (Closure checker performer success failure
                   name logger waitSecs waitMult maxCalls)).

(** The methods of a builder. Each setter is called on the object [this];
    it updates that object in the store and returns [this]. *)
Module Chain.

Definition set_opts (v : value) (c : chain) : chain :=
  MkChain (chain_checker c) v (chain_perform c) (chain_success c) (chain_failure c).
Definition set_perform (v : value) (c : chain) : chain :=
  MkChain (chain_checker c) (chain_opts c) v (chain_success c) (chain_failure c).
Definition set_success (v : value) (c : chain) : chain :=
  MkChain (chain_checker c) (chain_opts c) (chain_perform c) v (chain_failure c).
Definition set_failure (v : value) (c : chain) : chain :=
  MkChain (chain_checker c) (chain_opts c) (chain_perform c) (chain_success c) v.

Definition opts (this : ref) (options : value) (h : heap) : heap * ref :=
  (alter (set_opts options) this h, this).
Definition exec (this : ref) (perform : value) (h : heap) : heap * ref :=
  (alter (set_perform perform) this h, this).
Definition done (this : ref) (success : value) (h : heap) : heap * ref :=
  (alter (set_success success) this h, this).
Definition fail (this : ref) (failure : value) (h : heap) : heap * ref :=
  (alter (set_failure failure) this h, this).

(** [func()]; [None] only for a reference that points outside the store,
    which no JavaScript program can hold. *)
Definition func (this : ref) (h : heap) : option (heap * result) :=
  match h !! this with
  | Some c =>
      Some (ntil (chain_checker c) (chain_perform c) (chain_success c)
              (chain_failure c) (chain_opts c) h)
  | None => None
  end.

End Chain.

(** ** The handler *)

(** What the engine does to the outside world, in the order it does it. *)
Inductive level := Info | Warn.

Inductive message :=
| Succeeded
| TryingAgain (calls : Z) (wait : num)
| TooMany (calls : Z)
| Exception (e : string).

Inductive event :=
| Perform (args : list value)    (* performer.apply(performer, args.concat(next)) *)
| Check (result : list value)    (* checker.apply(checker, result) *)
| Log (l : level) (m : message)  (* logger.info(..) or logger.warn(..) *)
| Success (result : list value)  (* success.apply(success, result) *)
| Failure (result : list value)  (* failure.apply(failure, result) *)
| SetTimeout (ms : num).         (* setTimeout(function() { invoke() }, ms) *)

(** What one call of the performer does before it returns: the calls it
    makes to its completion callback, then a normal return or a throw, whose
    value is given by its string form. Completions made after the return
    are inputs of the event loop below. *)
Inductive ending := Returns | Throws (e : string).

Record behaviour := Behaviour {
  completions : list (list value);
  ending_of : ending
}.

(** The closure of a handler whose name is a string and whose three numeric
    settings are numbers. The checker is a function of the result values;
    the performer is given, for its n-th call in this invocation and the
    captured arguments, by what it does before returning. *)
Record env := Env {
  checker : list value -> value;
  performer : nat -> list value -> behaviour;
  success : value;
  failure : value;
  name : string;
  logger : value;
  waitSecs : num;
  waitMult : num;
  maxCalls : num
}.

(** The variables of one handler invocation, the timers it has pending and
    the effects it has had so far. *)
Record state := State {
  wait : num;
  calls : Z;
  timers : list num;
  out : list event
}.

Definition emit (ev : event) (s : state) : state :=
  State (wait s) (calls s) (timers s) (out s ++ [ev]).

Definition setTimeout (ms : num) (s : state) : state :=
  State (wait s) (calls s) (timers s ++ [ms]) (out s ++ [SetTimeout ms]).

Definition set_calls (c : Z) (s : state) : state :=
  State (wait s) c (timers s) (out s).

Definition set_wait (w : num) (s : state) : state :=
  State w (calls s) (timers s) (out s).

(** [if (logger) logger.l(m)] *)
Definition say (e : env) (l : level) (m : message) (s : state) : state :=
  if truthy (logger e) then emit (Log l m) s else s.

(** [if (typeof f === 'function') f.apply(f, result)] *)
Definition call_if_function (f : value) (ev : event) (s : state) : state :=
  if is_function f then emit ev s else s.

Definition next (e : env) (result : list value) (s : state) : state :=
  let s := emit (Check result) s in
  if is_true (checker e result) then
    let s := say e Info Succeeded s in
    call_if_function (success e) (Success result) s
  else
    let s := set_calls (calls s + 1) s in
    if below (calls s) (maxCalls e) then
      let s := say e Warn (TryingAgain (calls s) (wait s)) s in
      let s := setTimeout (mul (wait s) (int 1000)) s in
      set_wait (mul (wait s) (waitMult e)) s
    else
      let s := say e Warn (TooMany (calls s)) s in
      call_if_function (failure e) (Failure result) s.

(** The number of performer calls made so far. *)
Definition is_perform (ev : event) : bool :=
  match ev with Perform _ => true | _ => false end.

Fixpoint count (p : event -> bool) (tr : list event) : nat :=
  match tr with
  | [] => O
  | ev :: tr => if p ev then S (count p tr) else count p tr
  end.

Definition invocations (tr : list event) : nat := count is_perform tr.

Definition invoke (e : env) (args : list value) (s : state) : state :=
  let b := performer e (invocations (out s)) args in
  let s := emit (Perform args) s in
  let s := fold_left (fun s result => next e result s) (completions b) s in
  match ending_of b with
  | Returns => s
  | Throws x => next e [] (say e Warn (Exception x) s)
  end.

(** [handler(args...)]: fresh [wait] and [calls], then [invoke()]. *)
Definition init (e : env) : state := State (waitSecs e) 0 [] [].

Definition handler (e : env) (args : list value) : state :=
  invoke e args (init e).

(** ** The event loop *)

(** After the handler call has returned, the invocation moves on when one of
    its pending timers fires, or when the performer calls the completion
    callback from outside any of its own calls. *)
Inductive input :=
| Fire (i : nat)
| Complete (result : list value).

Definition step (e : env) (args : list value) (s : state) (i : input) : state :=
  match i with
  | Fire n =>
      match timers s !! n with
      | Some _ => invoke e args (State (wait s) (calls s) (delete n (timers s)) (out s))
      | None => s
      end
  | Complete result => next e result s
  end.

Definition run (e : env) (args : list value) (inputs : list input) (s : state) : state :=
  fold_left (step e args) inputs s.

(** Fires the oldest pending timer until none is left, at most [fuel] times. *)
Fixpoint drain (fuel : nat) (e : env) (args : list value) (s : state) : state :=
  match fuel with
  | O => s
  | S fuel =>
      match timers s with
      | [] => s
      | _ :: _ => drain fuel e args (step e args s (Fire 0))
      end
  end.

(** ** Log lines *)

Definition dquote : string := String (Ascii.ascii_of_nat 34) "".

Definition decimal (n : Z) : string :=
  DecimalString.NilZero.string_of_int (Z.to_int n).

(** The text of a log line. How a number is printed is the host's
    [Number::toString], taken here as [show]. *)
Definition line (show : num -> string) (name : string) (m : message) : string :=
  match m with
  | Succeeded => name +:+ ": success"
  | TryingAgain calls wait =>
      name +:+ ": " +:+ decimal calls +:+ " failure" +:+
      (if calls =? 1 then "" else "s") +:+
      " - trying again in " +:+ show wait +:+ " seconds"
  | TooMany calls => name +:+ ": too many failures (" +:+ decimal calls +:+ ")"
  | Exception x => name +:+ ": exception " +:+ dquote +:+ x +:+ dquote
  end.

Definition logged (show : num -> string) (name : string) (tr : list event)
  : list string :=
  omap (fun ev => match ev with Log _ m => Some (line show name m) | _ => None end) tr.

(** The text of a double that is a whole number, as the examples have
    them. *)
Definition show_whole (x : num) : string :=
  match whole x with
  | Some z => decimal z
  | None => "?"
  end.

(** ** From the closure of [ntil] to the handler *)

(** The handler of a closure, for the meaning [call] of its checker and the
    conduct [conduct] of its performer; defined when the resolved name is a
    string and the resolved numeric settings are numbers. *)
Definition instantiate
    (call : func -> list value -> value)
    (conduct : func -> nat -> list value -> behaviour)
    (cl : closure) : option env :=
  match cl_checker cl, cl_performer cl, cl_name cl,
        cl_waitSecs cl, cl_waitMult cl, cl_maxCalls cl with
  | VFun c, VFun p, VStr n, VNum w, VNum m, VNum k =>
      Some (Env (call c) (conduct p) (cl_success cl) (cl_failure cl)
              n (cl_logger cl) w m k)
  | _, _, _, _, _, _ => None
  end.

(** The handler that a call of [ntil] returned, if it returned one. *)
Definition handler_of
    (call : func -> list value -> value)
    (conduct : func -> nat -> list value -> behaviour)
    (r : heap * result) : option env :=
  match r.2 with
  | Handler cl => instantiate call conduct cl
  | _ => None
  end.

(** ** Vocabulary of the statements *)

(** The events of [if (logger) logger.l(m)] and of
    [if (typeof f === 'function') f.apply(f, result)]. *)
Definition said (e : env) (l : level) (m : message) : list event :=
  if truthy (logger e) then [Log l m] else [].

Definition called (f : value) (ev : event) : list event :=
  if is_function f then [ev] else [].

(** The results the checker has rejected so far, and the delays handed to
    [setTimeout] so far, oldest first. *)
Definition is_rejection (e : env) (ev : event) : bool :=
  match ev with
  | Check result => negb (is_true (checker e result))
  | _ => false
  end.

Definition rejections (e : env) (tr : list event) : nat := count (is_rejection e) tr.

Definition delays (tr : list event) : list num :=
  omap (fun ev => match ev with SetTimeout ms => Some ms | _ => None end) tr.

Definition is_failure (ev : event) : bool :=
  match ev with Failure _ => true | _ => false end.

Definition is_success (ev : event) : bool :=
  match ev with Success _ => true | _ => false end.

(** The number of retries that [c] rejections have scheduled: one for
    each counter value from 1 to [c] that is below [maxCalls]. *)
Fixpoint retries_upto (m : num) (c : nat) : nat :=
  match c with
  | O => O
  | S c' => ((if below (Z.of_nat (S c')) m then 1 else 0) + retries_upto m c')%nat
  end.

Definition retries (e : env) (c : Z) : nat := retries_upto (maxCalls e) (Z.to_nat c).

(** The delay, in milliseconds, of the retry scheduled by rejection [j+1]:
    [wait], multiplied [j] times by [waitMult], times 1000. *)
Definition backoff (e : env) (j : nat) : num :=
  mul (waits (waitSecs e) (waitMult e) j) (int 1000).

(** The states an invocation passes through, between any two of the
    engine's own steps: the fresh state, a completion processed, the
    performer called, its exception logged, a timer taken off the queue. *)
Inductive reachable (e : env) : state -> Prop :=
| reach_init : reachable e (init e)
| reach_next result s : reachable e s -> reachable e (next e result s)
| reach_perform args s : reachable e s -> reachable e (emit (Perform args) s)
| reach_caught x s : reachable e s -> reachable e (say e Warn (Exception x) s)
| reach_fired n s :
    reachable e s ->
    reachable e (State (wait s) (calls s) (delete n (timers s)) (out s)).

(** An invocation after [j] attempts, with one retry pending and the
    failure callback not yet called. *)
Definition pending (j : nat) (s : state) : Prop :=
  calls s = Z.of_nat j /\ invocations (out s) = j /\
  count is_failure (out s) = O /\ exists t, timers s = [t].

(** An invocation after [j] attempts whose results were [res 0], ...,
    [res (j-1)], the last of which exhausted it: nothing is pending, and
    the trace ends with the last check, the warning and the one call of the
    failure callback, if there is one. *)
Definition exhausted_at (e : env) (res : nat -> list value) (j : nat) (s : state)
  : Prop :=
  calls s = Z.of_nat j /\ invocations (out s) = j /\ timers s = [] /\
  exists pre,
    count is_failure pre = O /\
    out s = pre ++ Check (res (pred j))
                :: said e Warn (TooMany (Z.of_nat j))
                ++ called (failure e) (Failure (res (pred j))).

Definition after (e : env) (res : nat -> list value) (j : nat) (s : state) : Prop :=
  if below (Z.of_nat j) (maxCalls e) then pending j s else exhausted_at e res j s.

(** In every state the counter is the number of rejected results, the
    current wait is the initial wait multiplied once per retry scheduled,
    and the delays scheduled so far are those products times 1000, in
    order. *)
Definition bookkeeping (e : env) (s : state) : Prop :=
  0 <= calls s /\
  calls s = Z.of_nat (rejections e (out s)) /\
  wait s = waits (waitSecs e) (waitMult e) (retries e (calls s)) /\
  delays (out s) = backoff e <$> seq 0 (retries e (calls s)).

(** The same handler with another performer. *)
Definition with_performer (e : env) (p : nat -> list value -> behaviour) : env :=
  Env (checker e) p (success e) (failure e) (name e) (logger e)
    (waitSecs e) (waitMult e) (maxCalls e).






(** ** The fluent chain *)

Inductive setter :=
| Opts (options : value)
| Exec (perform : value)
| Done (success : value)
| Fail (failure : value).

Definition call_setter (this : ref) (c : setter) (h : heap) : heap * ref :=
  match c with
  | Opts v => Chain.opts this v h
  | Exec v => Chain.exec this v h
  | Done v => Chain.done this v h
  | Fail v => Chain.fail this v h
  end.

(** [this.c1(..).c2(..)...]: each setter is called on what the one before
    it returned. *)
Fixpoint call_setters (this : ref) (cs : list setter) (h : heap) : heap * ref :=
  match cs with
  | [] => (h, this)
  | c :: cs => let '(h', r) := call_setter this c h in call_setters r cs h'
  end.

(** What a setter does to the object it is called on. *)
Definition write (ch : chain) (c : setter) : chain :=
  match c with
  | Opts v => Chain.set_opts v ch
  | Exec v => Chain.set_perform v ch
  | Done v => Chain.set_success v ch
  | Fail v => Chain.set_failure v ch
  end.

(** [ntil(checker).c1(..)...cn(..).func()]; when [ntil(checker)] throws the
    chain is never entered. *)
Definition fluent (checker : value) (cs : list setter) (h : heap)
  : option (heap * result) :=
  match ntil checker VUndefined VUndefined VUndefined VUndefined h with
  | (h1, Builder b) => let '(h2, b') := call_setters b cs h1 in Chain.func b' h2
  | thrown => Some thrown
  end.

(** The value a slot holds after a sequence of setters, read off the
    sequence: the last write to it, or [seed] if there is none. *)
Definition slot (pick : setter -> option value) (seed : value) (cs : list setter)
  : value :=
  fold_left (fun v c => default v (pick c)) cs seed.

Definition pick_opts (c : setter) := match c with Opts v => Some v | _ => None end.
Definition pick_exec (c : setter) := match c with Exec v => Some v | _ => None end.
Definition pick_done (c : setter) := match c with Done v => Some v | _ => None end.
Definition pick_fail (c : setter) := match c with Fail v => Some v | _ => None end.

Inductive slot_name := OptsSlot | PerformSlot | SuccessSlot | FailureSlot.

Definition slot_of (c : setter) : slot_name :=
  match c with
  | Opts _ => OptsSlot
  | Exec _ => PerformSlot
  | Done _ => SuccessSlot
  | Fail _ => FailureSlot
  end.

(** Two outcomes of construction are the same when both throw the same
    value, both are the same handler closure, or both are builders in
    the same state. *)
Definition same_result (a b : heap * result) : Prop :=
  match a.2, b.2 with
  | Thrown x, Thrown y => x = y
  | Handler x, Handler y => x = y
  | Builder x, Builder y => is_Some (a.1 !! x) /\ a.1 !! x = b.1 !! y
  | _, _ => False
  end.

Definition same_outcome (a : option (heap * result)) (b : heap * result) : Prop :=
  match a with
  | Some a => same_result a b
  | None => False
  end.

(** ** The examples of the README *)

Module Readme.

(** [function(result) { return result === 3 }] *)
Definition is_three (result : list value) : value :=
  match result with
  | VNum x :: _ => VBool (SFeqb x (int 3))
  | _ => VBool false
  end.

(** [function myFunc(a, b, next) { next(a + b) }], on two numbers, as the
    examples call it. *)
Definition myFunc (n : nat) (args : list value) : behaviour :=
  match args with
  | VNum a :: VNum b :: _ => Behaviour [[VNum (SFadd 53 1024 a b)]] Returns
  | _ => Behaviour [[VUndefined]] Returns
  end.

Definition callback (n : string) : value := VFun (Func n 0).

Definition first : env :=
  Env is_three myFunc (callback "done") (callback "fail")
    "myFunc" (VObj []) (int 1) (int 2) (int 7).

(** [function(add, sub) { return add === 3 && sub === 1 }] *)
Definition is_three_one (result : list value) : value :=
  match result with
  | VNum x :: VNum y :: _ => VBool (SFeqb x (int 3) && SFeqb y (int 1))
  | _ => VBool false
  end.

(** [function perform(a, b, next) { next(a + b, a - b) }], on two numbers. *)
Definition perform (n : nat) (args : list value) : behaviour :=
  match args with
  | VNum a :: VNum b :: _ =>
      Behaviour [[VNum (SFadd 53 1024 a b); VNum (SFsub 53 1024 a b)]] Returns
  | _ => Behaviour [[VUndefined; VUndefined]] Returns
  end.

Definition second : env :=
  Env is_three_one perform (callback "done") (callback "fail")
    "perform" (VObj []) (int 2) (int 1) (int 3).

End Readme.

(** ** Further vocabulary *)

Definition is_log (ev : event) : bool :=
  match ev with Log _ _ => true | _ => false end.

(** The retry warnings of a trace: the count and the wait each one reports. *)
Definition retry_logs (tr : list event) : list (Z * num) :=
  omap (fun ev => match ev with
                  | Log Warn (TryingAgain c w) => Some (c, w)
                  | _ => None
                  end) tr.

Definition total (ms : list Z) : Z := foldr Z.add 0 ms.

(** The first [r] delays, in milliseconds, of the settings [a] and [b]
    as the integers they are: [1000 * a], [1000 * a * b], ... *)
Definition millis (a b : Z) (r : nat) : list Z :=
  (fun i => 1000 * (a * b ^ Z.of_nat i)) <$> seq 0 r.

(** Every call of the performer but the first has used up one timer:
    calls made plus timers pending is one more than timers scheduled. *)
Definition balanced (s : state) : Prop :=
  (invocations (out s) + length (timers s) = 1 + length (delays (out s)))%nat.

(** An invocation after [j] rejected attempts and no success, with one
    retry pending. *)
Definition retrying (j : nat) (s : state) : Prop :=
  pending j s /\ count is_success (out s) = O.

(** An invocation whose attempts [0], ..., [j-1] were rejected and whose
    attempt [j] was accepted: nothing is pending, [wait] has been multiplied
    [j] times, and the trace ends with the accepting check, the log line
    and the one call of the success callback, if there is one. *)
Definition accepted_at (e : env) (res : nat -> list value) (j : nat) (s : state)
  : Prop :=
  calls s = Z.of_nat j /\ invocations (out s) = S j /\ timers s = [] /\
  wait s = waits (waitSecs e) (waitMult e) j /\
  delays (out s) = backoff e <$> seq 0 j /\
  exists pre,
    count is_failure pre = O /\ count is_success pre = O /\
    out s = pre ++ Check (res j)
                :: said e Info Succeeded
                ++ called (success e) (Success (res j)).

(** Options that are neither an object nor a function: [undefined], [null],
    a boolean, a number or a string. *)
Definition is_primitive (o : value) : bool :=
  match o with
  | VObj _ | VFun _ => false
  | _ => true
  end.

(** The handler whose performer completes each call once, before it
    returns, with [res n] for its n-th call; and the one whose performer
    returns without completing, the completions arriving later. *)
Definition completing_at_once (e : env) (res : nat -> list value) : env :=
  with_performer e (fun n _ => Behaviour [res n] Returns).

Definition completing_later (e : env) : env :=
  with_performer e (fun _ _ => Behaviour [] Returns).

(** The events of [j] rounds of a performer that completes later: its
    result arrives, then the timer that it set fires. *)
Fixpoint later (res : nat -> list value) (j : nat) : list input :=
  match j with
  | O => []
  | S j => later res j ++ [Complete (res j); Fire 0]
  end.

(** The state of such an invocation after [j] rounds, its call number
    [j] made and not yet completed. *)
Fixpoint awaiting (e : env) (args : list value) (res : nat -> list value) (j : nat)
  : state :=
  match j with
  | O => handler (completing_later e) args
  | S j => step (completing_later e) args
             (next e (res j) (awaiting e args res j)) (Fire 0)
  end.

(** ** Settings where products round *)

Module Cases.

(** A performer that completes each call once, before it returns, with no
    value, and a checker that rejects it. *)
Definition rejecting (w m k : num) : env :=
  Env (fun _ => VBool false) (fun _ _ => Behaviour [[]] Returns)
    VUndefined (Readme.callback "fail") "perform" VUndefined w m k.



(** [{maxCalls: 2.5}] *)
Definition two_and_a_half : env :=
  rejecting (int 1) (int 2) (SFdiv 53 1024 (int 5) (int 2)).

(** 2^-600, a double whose square is too small to be one. *)
Definition tiny : num := S754_finite false 4503599627370496 (-652).
End Cases.

(** [n] is the first value of the counter at which [calls < maxCalls]
    fails: the counter is at least 1 when the test is made, and counts
    exactly up to 2^53. For a [maxCalls] that is an integer of at least 1
    this is [maxCalls]; for 2.5 it is 3; for anything below 1, and for
    NaN, it is 1; for [Infinity] there is none. *)
Definition first_refusal (m : num) (n : Z) : Prop :=
  1 <= n <= 2 ^ 53 /\ below n m = false /\ (1 < n -> below (n - 1) m = true).



(** * Properties *)

(** ** Comparing doubles *)

Lemma lt_key x y :
  lt x y = true <-> is_nan x = false /\ is_nan y = false /\ lex_lt (key x) (key y).
Proof.
  unfold lt, SFltb, lex_lt.
  destruct x as [sx|sx| |sx mx ex], y as [sy|sy| |sy my ey]; simpl;
    try (destruct sx); try (destruct sy); simpl;
    try (split; [discriminate | intros (? & ? & ?); try discriminate; lia]);
    try (split; [intros _; repeat split; lia | reflexivity]).
  - destruct (Z.compare_spec ex ey) as [He|He|He];
      [rewrite Pos.compare_cont_spec; simpl;
       destruct (Pos.compare_spec mx my) as [Hm|Hm|Hm]; simpl | |];
      (split; [try discriminate; intros _; repeat split; lia
              | intros (_ & _ & H); try reflexivity; lia]).
  - destruct (Z.compare_spec ex ey) as [He|He|He];
      [rewrite Pos.compare_cont_spec; simpl;
       destruct (Pos.compare_spec mx my) as [Hm|Hm|Hm]; simpl | |];
      (split; [try discriminate; intros _; repeat split; lia
              | intros (_ & _ & H); try reflexivity; lia]).
Qed.

Lemma mantissa_low a : 0 < a -> Z.log2 a <= 52 -> mantissa a = a * 2 ^ (52 - Z.log2 a).
Proof. intros Ha Hl. unfold mantissa. apply Z.shiftl_mul_pow2. lia. Qed.

Lemma mantissa_high a :
  0 < a -> 52 < Z.log2 a -> mantissa a = a / 2 ^ (Z.log2 a - 52).
Proof.
  intros Ha Hl. unfold mantissa.
  rewrite Z.shiftl_div_pow2 by lia. do 2 f_equal. lia.
Qed.

Lemma mantissa_pos a : 0 < a -> 0 < mantissa a.
Proof.
  intros Ha. destruct (Z.le_gt_cases (Z.log2 a) 52) as [Hl|Hl].
  - rewrite mantissa_low by assumption.
    apply Z.mul_pos_pos; [assumption | apply Z.pow_pos_nonneg; lia].
  - rewrite mantissa_high by assumption.
    apply Z.div_str_pos. split; [apply Z.pow_pos_nonneg; lia|].
    pose proof (Z.log2_spec a Ha) as [Hlow _].
    assert (2 ^ (Z.log2 a - 52) <= 2 ^ Z.log2 a)
      by (apply Z.pow_le_mono_r; lia).
    lia.
Qed.

Lemma mantissa_mono a b :
  0 < a <= b -> Z.log2 a = Z.log2 b -> mantissa a <= mantissa b.
Proof.
  intros [Ha Hab] Hl. destruct (Z.le_gt_cases (Z.log2 a) 52) as [Hs|Hs].
  - rewrite !mantissa_low by lia. rewrite Hl.
    apply Z.mul_le_mono_nonneg_r; [apply Z.pow_nonneg; lia | assumption].
  - rewrite !mantissa_high by lia. rewrite Hl.
    apply Z.div_le_mono; [apply Z.pow_pos_nonneg; lia | assumption].
Qed.

Lemma mantissa_strict a b :
  0 < a < b -> Z.log2 a = Z.log2 b -> Z.log2 b <= 52 -> mantissa a < mantissa b.
Proof.
  intros [Ha Hab] Hl Hs. rewrite !mantissa_low by lia. rewrite Hl.
  apply Z.mul_lt_mono_pos_r; [apply Z.pow_pos_nonneg; lia | assumption].
Qed.

Lemma key_int_pos a :
  0 < a -> key (int a) = (1, Z.log2 a - 52, mantissa a).
Proof.
  intros Ha. destruct a as [|p|p]; try lia. simpl key.
  now rewrite Z2Pos.id by now apply mantissa_pos.
Qed.

Lemma key_int_neg a :
  a < 0 -> key (int a) = (-1, - (Z.log2 (- a) - 52), - mantissa (- a)).
Proof.
  intros Ha. destruct a as [|p|p]; try lia. simpl key.
  now rewrite Z2Pos.id by now apply mantissa_pos.
Qed.

Lemma int_not_nan a : is_nan (int a) = false.
Proof. now destruct a. Qed.

Lemma key_int_mono a b : a <= b -> lex_le (key (int a)) (key (int b)).
Proof.
  intros Hab. unfold lex_le, lex_lt.
  destruct (Z.lt_total a 0) as [Ha|[Ha|Ha]], (Z.lt_total b 0) as [Hb|[Hb|Hb]];
    try lia; subst;
    rewrite ?(key_int_pos a), ?(key_int_pos b), ?(key_int_neg a), ?(key_int_neg b)
      by assumption; simpl;
    try (left; lia); try (now right).
  - assert (Hlog : Z.log2 (- b) <= Z.log2 (- a)) by (apply Z.log2_le_mono; lia).
    destruct (Z.eq_dec (Z.log2 (- b)) (Z.log2 (- a))) as [Heq|Hne].
    + assert (Hm : mantissa (- b) <= mantissa (- a))
        by (apply mantissa_mono; [lia | exact Heq]).
      destruct (Z.eq_dec (mantissa (- b)) (mantissa (- a))) as [Hme|Hmn].
      * right. now rewrite Heq, Hme.
      * left. right. split; [reflexivity|]. right. split; lia.
    + left. right. split; [reflexivity|]. left. lia.
  - assert (Hlog : Z.log2 a <= Z.log2 b) by (apply Z.log2_le_mono; lia).
    destruct (Z.eq_dec (Z.log2 a) (Z.log2 b)) as [Heq|Hne].
    + assert (Hm : mantissa a <= mantissa b)
        by (apply mantissa_mono; [lia | exact Heq]).
      destruct (Z.eq_dec (mantissa a) (mantissa b)) as [Hme|Hmn].
      * right. now rewrite Heq, Hme.
      * left. right. split; [reflexivity|]. right. split; lia.
    + left. right. split; [reflexivity|]. left. lia.
Qed.

Lemma lex_le_lt_trans a b c : lex_le a b -> lex_lt b c -> lex_lt a c.
Proof.
  intros [Hab| ->] Hbc; [|exact Hbc].
  destruct a as [[a1 a2] a3], b as [[b1 b2] b3], c as [[c1 c2] c3].
  unfold lex_lt in *; simpl in *. lia.
Qed.

Lemma lex_lt_irrefl a : ~ lex_lt a a.
Proof. destruct a as [[a1 a2] a3]. unfold lex_lt; simpl. lia. Qed.

(** [a <= b] and [b < m] give [a < m], for any double [m]. *)
Lemma below_mono a b m : a <= b -> below b m = true -> below a m = true.
Proof.
  unfold below. intros Hab (_ & Hm & Hlt)%lt_key. apply lt_key.
  split; [apply int_not_nan|]. split; [exact Hm|].
  apply (lex_le_lt_trans _ (key (int b))); [now apply key_int_mono | exact Hlt].
Qed.

Lemma below_refuses a b m : a <= b -> below a m = false -> below b m = false.
Proof.
  intros Hab Ha. destruct (below b m) eqn:Hb; [|reflexivity].
  now rewrite (below_mono a b m Hab Hb) in Ha.
Qed.

Lemma below_self a : below a (int a) = false.
Proof.
  destruct (below a (int a)) eqn:H; [|reflexivity].
  apply lt_key in H as (_ & _ & H). now apply lex_lt_irrefl in H.
Qed.

Lemma below_next a : 0 <= a -> a + 1 < 2 ^ 53 -> below a (int (a + 1)) = true.
Proof.
  intros Ha Hb. apply lt_key. rewrite !int_not_nan. do 2 (split; [reflexivity|]).
  unfold lex_lt. rewrite (key_int_pos (a + 1)) by lia.
  destruct (Z.eq_dec a 0) as [->|Hne]; [left; simpl; lia|].
  rewrite key_int_pos by lia. simpl. right. split; [reflexivity|].
  assert (Hlog : Z.log2 a <= Z.log2 (a + 1)) by (apply Z.log2_le_mono; lia).
  destruct (Z.eq_dec (Z.log2 a) (Z.log2 (a + 1))) as [Heq|Hnq]; [|left; lia].
  right. split; [lia|].
  apply mantissa_strict; [lia | exact Heq |].
  assert (Z.log2 (a + 1) < 53); [|lia].
  apply Z.log2_lt_pow2; lia.
Qed.

Lemma below_int a b : 0 <= a -> 0 <= b < 2 ^ 53 -> below a (int b) = (a <? b).
Proof.
  intros Ha Hb. destruct (Z.ltb_spec a b) as [Hlt|Hge].
  - apply (below_mono a (b - 1)); [lia|].
    replace b with (b - 1 + 1) at 2 by lia. apply below_next; lia.
  - apply (below_refuses b a); [lia | apply below_self].
Qed.

Lemma negative_refuses n c : lt n (int 0) = true -> 0 <= c -> below c n = false.
Proof.
  intros (_ & _ & Hn)%lt_key Hc.
  destruct (below c n) eqn:Hb; [|reflexivity].
  apply lt_key in Hb as (_ & _ & Hb).
  pose proof (key_int_mono 0 c Hc) as H0.
  pose proof (lex_le_lt_trans _ _ _ H0 Hb) as H1.
  destruct (key n) as [[n1 n2] n3]. unfold lex_lt in *; simpl in *. lia.
Qed.

(** ** Products of integers *)

(** The number of binary digits that [SpecFloat] counts is that of
    [Z.log2]. *)
Lemma digits2_size p : digits2_pos p = Pos.size p.
Proof. induction p; simpl; congruence. Qed.

Lemma digits2_log2 p : Zpos (digits2_pos p) = Z.log2 (Zpos p) + 1.
Proof.
  rewrite digits2_size. destruct p; simpl; rewrite ?Pos2Z.inj_succ; try lia.
  all: now rewrite Pos.add_1_r, Pos2Z.inj_succ.
Qed.

Lemma iter_pos_nat {A} (f : A -> A) p : forall x,
  SpecFloat.iter_pos f p x = Nat.iter (Pos.to_nat p) f x.
Proof.
  induction p as [p IH|p IH|]; intros x; cbn [SpecFloat.iter_pos].
  - rewrite !IH, <- Nat.iter_succ_r, <- Nat.iter_add. f_equal. lia.
  - rewrite !IH, <- Nat.iter_add. f_equal. lia.
  - reflexivity.
Qed.

Lemma shr_exact n : forall K,
  0 < K ->
  Nat.iter n shr_1 (Build_shr_record (K * 2 ^ Z.of_nat n) false false)
  = Build_shr_record K false false.
Proof.
  induction n as [|n IH]; intros K HK.
  - simpl. now rewrite Z.mul_1_r.
  - rewrite Nat.iter_succ_r. rewrite Nat2Z.inj_succ, Z.pow_succ_r by lia.
    replace (K * (2 * 2 ^ Z.of_nat n)) with (2 * (K * 2 ^ Z.of_nat n)) by ring.
    assert (Hpos : 0 < K * 2 ^ Z.of_nat n)
      by (apply Z.mul_pos_pos; [lia | apply Z.pow_pos_nonneg; lia]).
    destruct (K * 2 ^ Z.of_nat n) as [|q|q] eqn:Hq; try lia.
    change (2 * Z.pos q) with (Zpos (xO q)). cbn [shr_1 orb].
    rewrite <- Hq. now apply IH.
Qed.

Lemma fexp_normal x : -1021 <= x -> fexp 53 1024 x = x - 53.
Proof. intros Hx. unfold fexp, emin. lia. Qed.

Lemma Zdigits2_log2 m : 0 < m -> Zdigits2 m = Z.log2 m + 1.
Proof. destruct m as [|p|p]; try lia. intros _. apply digits2_log2. Qed.

Lemma shr_fexp_exact K e n :
  0 < K -> Z.log2 K = 52 -> -1074 <= e -> 0 <= n ->
  shr_fexp 53 1024 (K * 2 ^ n) (e - n) loc_Exact
  = (Build_shr_record K false false, e).
Proof.
  intros HK Hlog He Hn. unfold shr_fexp.
  assert (Hpos : 0 < K * 2 ^ n)
    by (apply Z.mul_pos_pos; [lia | apply Z.pow_pos_nonneg; lia]).
  rewrite Zdigits2_log2 by exact Hpos.
  rewrite Z.log2_mul_pow2 by lia.
  rewrite fexp_normal by lia.
  replace (n + Z.log2 K + 1 + (e - n) - 53 - (e - n)) with n by lia.
  cbn [shr_record_of_loc]. unfold shr.
  destruct n as [|p|p]; [|clear Hn|lia].
  - rewrite Z.mul_1_r, Z.sub_0_r. reflexivity.
  - rewrite iter_pos_nat.
    replace (Z.pos p) with (Z.of_nat (Pos.to_nat p)) at 1 by lia.
    rewrite shr_exact by exact HK. f_equal. lia.
Qed.

Lemma round_exact s K e n :
  0 < K -> Z.log2 K = 52 -> -1074 <= e <= 971 -> 0 <= n ->
  binary_round_aux 53 1024 s (K * 2 ^ n) (e - n) loc_Exact
  = S754_finite s (Z.to_pos K) e.
Proof.
  intros HK Hlog He Hn. unfold binary_round_aux.
  rewrite shr_fexp_exact by lia.
  cbn [shr_m loc_of_shr_record round_nearest_even].
  pose proof (shr_fexp_exact K e 0 HK Hlog ltac:(lia) ltac:(lia)) as Hagain.
  rewrite Z.mul_1_r, Z.sub_0_r in Hagain. rewrite Hagain. cbn [shr_m].
  destruct K as [|k|k]; try lia.
  replace (e <=? 1024 - 53) with true by (symmetry; apply Z.leb_le; lia).
  reflexivity.
Qed.

Lemma mantissa_log2 a :
  0 < a -> Z.log2 a <= 52 -> 0 < mantissa a /\ Z.log2 (mantissa a) = 52.
Proof.
  intros Ha Hl. rewrite mantissa_low by assumption. split.
  - apply Z.mul_pos_pos; [lia | apply Z.pow_pos_nonneg; lia].
  - rewrite Z.log2_mul_pow2 by lia. lia.
Qed.

Lemma int_pos a :
  0 < a -> int a = S754_finite false (Z.to_pos (mantissa a)) (Z.log2 a - 52).
Proof. destruct a; try lia. reflexivity. Qed.

(** The product of two positive integers below 2^53 is computed exactly
    when it is itself below 2^53. *)
Lemma mul_int a b :
  0 < a -> 0 < b -> a * b < 2 ^ 53 -> mul (int a) (int b) = int (a * b).
Proof.
  intros Ha Hb Hab.
  assert (Hpos : 0 < a * b) by lia.
  assert (Hlab : Z.log2 (a * b) <= 52)
    by (apply Z.lt_succ_r, Z.log2_lt_pow2; lia).
  assert (Hla : Z.log2 a <= 52).
  { apply Z.lt_succ_r, Z.log2_lt_pow2; [lia|]. nia. }
  assert (Hlb : Z.log2 b <= 52).
  { apply Z.lt_succ_r, Z.log2_lt_pow2; [lia|]. nia. }
  pose proof (Z.log2_nonneg a) as Hna. pose proof (Z.log2_nonneg b) as Hnb.
  pose proof (Z.log2_nonneg (a * b)) as Hnab.
  pose proof (Z.log2_mul_below a b Ha Hb) as Hbelow.
  pose proof (mantissa_log2 a Ha Hla) as [Hma _].
  pose proof (mantissa_log2 b Hb Hlb) as [Hmb _].
  pose proof (mantissa_log2 (a * b) Hpos Hlab) as [Hmab Hlmab].
  rewrite !int_pos by assumption. unfold mul. cbn [SFmul xorb].
  rewrite Pos2Z.inj_mul, !Z2Pos.id by assumption.
  set (n := Z.log2 (a * b) - Z.log2 a - Z.log2 b + 52).
  replace (mantissa a * mantissa b) with (mantissa (a * b) * 2 ^ n).
  - replace (Z.log2 a - 52 + (Z.log2 b - 52)) with (Z.log2 (a * b) - 52 - n)
      by (unfold n; lia).
    apply round_exact; try assumption; unfold n; lia.
  - rewrite !mantissa_low by assumption.
    replace (a * 2 ^ (52 - Z.log2 a) * (b * 2 ^ (52 - Z.log2 b)))
      with (a * b * (2 ^ (52 - Z.log2 a) * 2 ^ (52 - Z.log2 b))) by ring.
    rewrite <- Z.mul_assoc, <- !Z.pow_add_r by (unfold n; lia).
    do 2 f_equal. unfold n. lia.
Qed.

(** [wait] after [j] multiplications, for integer settings: as long as
    the products stay below 2^53 every one of them is exact. *)
Lemma waits_int a b j :
  0 < a -> 0 < b -> a * b ^ Z.of_nat j < 2 ^ 53 ->
  waits (int a) (int b) j = int (a * b ^ Z.of_nat j).
Proof.
  intros Ha Hb. induction j as [|j IH]; intros Hj.
  - simpl. now rewrite Z.mul_1_r.
  - rewrite Nat2Z.inj_succ, Z.pow_succ_r in * by lia.
    assert (Hpow : 0 < b ^ Z.of_nat j) by (apply Z.pow_pos_nonneg; lia).
    change (waits (int a) (int b) (S j))
      with (mul (waits (int a) (int b) j) (int b)).
    rewrite IH by nia. rewrite mul_int by nia. f_equal. ring.
Qed.

(** ** The three ways a completion is processed *)

Ltac unfold_next :=
  unfold next, say, call_if_function, said, called, setTimeout, set_wait,
    set_calls, emit; simpl.

Ltac tidy_trace :=
  simpl; repeat rewrite <- app_assoc; simpl; try reflexivity.

Lemma next_accepted e result s :
  is_true (checker e result) = true ->
  next e result s =
    State (wait s) (calls s) (timers s)
      (out s ++ Check result :: said e Info Succeeded
             ++ called (success e) (Success result)).
Proof.
  intros Hacc. unfold_next. rewrite Hacc.
  destruct (truthy (logger e)), (is_function (success e)); tidy_trace.
Qed.

Lemma next_retry e result s :
  is_true (checker e result) = false ->
  below (calls s + 1) (maxCalls e) = true ->
  next e result s =
    State (mul (wait s) (waitMult e)) (calls s + 1)
      (timers s ++ [mul (wait s) (int 1000)])
      (out s ++ Check result :: said e Warn (TryingAgain (calls s + 1) (wait s))
             ++ [SetTimeout (mul (wait s) (int 1000))]).
Proof.
  intros Hrej Hlt. unfold_next. rewrite Hrej, Hlt.
  destruct (truthy (logger e)); tidy_trace.
Qed.

Lemma next_exhausted e result s :
  is_true (checker e result) = false ->
  below (calls s + 1) (maxCalls e) = false ->
  next e result s =
    State (wait s) (calls s + 1) (timers s)
      (out s ++ Check result :: said e Warn (TooMany (calls s + 1))
             ++ called (failure e) (Failure result)).
Proof.
  intros Hrej Hge. unfold_next. rewrite Hrej, Hge.
  destruct (truthy (logger e)), (is_function (failure e)); tidy_trace.
Qed.

(** A completion is one of the three. *)
Lemma next_cases e result s :
  (is_true (checker e result) = true) \/
  (is_true (checker e result) = false /\ below (calls s + 1) (maxCalls e) = true) \/
  (is_true (checker e result) = false /\ below (calls s + 1) (maxCalls e) = false).
Proof.
  destruct (is_true (checker e result)); [now left | right].
  destruct (below (calls s + 1) (maxCalls e)); [left | right]; auto.
Qed.

Lemma is_true_iff v : is_true v = true <-> v = VBool true.
Proof.
  split; [|now intros ->].
  destruct v as [| |[]| | | |]; simpl; congruence.
Qed.

Lemma is_true_false v : is_true v = false <-> v <> VBool true.
Proof.
  rewrite <- is_true_iff. destruct (is_true v); split; congruence.
Qed.

(** ** Counting over traces *)

Lemma count_app p tr1 tr2 : count p (tr1 ++ tr2) = (count p tr1 + count p tr2)%nat.
Proof.
  induction tr1 as [|ev tr1 IH]; simpl; [reflexivity|].
  destruct (p ev); simpl; rewrite IH; reflexivity.
Qed.

Lemma count_said p e l m : p (Log l m) = false -> count p (said e l m) = O.
Proof. intros Hp. unfold said. destruct (truthy (logger e)); simpl; now rewrite ?Hp. Qed.

Lemma count_called p f ev : p ev = false -> count p (called f ev) = O.
Proof. intros Hp. unfold called. destruct (is_function f); simpl; now rewrite ?Hp. Qed.

Lemma delays_app tr1 tr2 : delays (tr1 ++ tr2) = delays tr1 ++ delays tr2.
Proof. apply omap_app. Qed.

Lemma delays_said e l m : delays (said e l m) = [].
Proof. unfold said. now destruct (truthy (logger e)). Qed.

Lemma delays_called f ev :
  match ev with SetTimeout _ => False | _ => True end -> delays (called f ev) = [].
Proof. unfold called. destruct (is_function f), ev; simpl; tauto. Qed.

(** ** The bookkeeping invariant *)

Lemma retries_upto_le m c : (retries_upto m c <= c)%nat.
Proof.
  induction c as [|c IH]; simpl; [lia|].
  destruct (below (Z.of_nat (S c)) m); lia.
Qed.

(** A counter value below [maxCalls]: every rejection up to it has
    scheduled a retry. *)
Lemma retries_upto_all m c :
  below (Z.of_nat c) m = true -> retries_upto m c = c.
Proof.
  induction c as [|c IH]; intros Hc; [reflexivity|].
  cbn [retries_upto]. rewrite Hc, IH; [reflexivity|].
  apply (below_mono _ (Z.of_nat (S c))); [lia | exact Hc].
Qed.

(** A counter value not below [maxCalls]: no rejection from it on
    schedules a retry. *)
Lemma retries_upto_frozen m c c' :
  below (Z.of_nat c) m = false -> (c <= c')%nat ->
  retries_upto m c' = retries_upto m c.
Proof.
  intros Hc. induction 1 as [|c' Hle IH]; [reflexivity|].
  cbn [retries_upto]. rewrite IH.
  now rewrite (below_refuses (Z.of_nat c) (Z.of_nat (S c')) m) by (lia || assumption).
Qed.

Lemma retries_upto_bound m n c :
  (1 <= n)%nat -> below (Z.of_nat n) m = false ->
  (retries_upto m c <= n - 1)%nat.
Proof.
  intros Hn Hm. destruct (Nat.le_gt_cases n c) as [Hle|Hgt].
  - rewrite (retries_upto_frozen m n c Hm Hle).
    destruct n as [|n]; [lia|]. cbn [retries_upto]. rewrite Hm.
    pose proof (retries_upto_le m n). lia.
  - pose proof (retries_upto_le m c). lia.
Qed.

Lemma retries_succ e c :
  0 <= c ->
  retries e (c + 1)
  = ((if below (c + 1) (maxCalls e) then 1 else 0) + retries e c)%nat.
Proof.
  intros Hc. unfold retries.
  replace (Z.to_nat (c + 1)) with (S (Z.to_nat c)) by lia.
  cbn [retries_upto]. now replace (Z.of_nat (S (Z.to_nat c))) with (c + 1) by lia.
Qed.

Lemma bookkeeping_silent e s ev ts :
  bookkeeping e s ->
  is_rejection e ev = false ->
  delays [ev] = [] ->
  bookkeeping e (State (wait s) (calls s) ts (out s ++ [ev])).
Proof.
  intros (Hpos & Hcalls & Hwait & Hdelays) Hrej Hdel.
  unfold bookkeeping, rejections; simpl.
  rewrite count_app, delays_app, Hdel, app_nil_r; simpl. rewrite Hrej.
  unfold rejections in Hcalls. repeat split; auto. lia.
Qed.

Lemma bookkeeping_next e result s :
  bookkeeping e s -> bookkeeping e (next e result s).
Proof.
  intros (Hpos & Hcalls & Hwait & Hdelays).
  unfold rejections in Hcalls.
  destruct (next_cases e result s) as [Hacc | [[Hrej Hlt] | [Hrej Hge]]].
  - rewrite (next_accepted _ _ _ Hacc).
    unfold bookkeeping, rejections; simpl.
    rewrite count_app, delays_app; simpl. rewrite Hacc; simpl.
    rewrite count_app, delays_app, delays_said, count_said by reflexivity.
    rewrite delays_called, count_called by (reflexivity || exact I).
    rewrite app_nil_r. repeat split; auto. lia.
  - rewrite (next_retry _ _ _ Hrej Hlt).
    unfold bookkeeping, rejections; simpl.
    rewrite count_app, delays_app; simpl. rewrite Hrej; simpl.
    rewrite count_app, delays_app, delays_said, count_said by reflexivity.
    simpl. rewrite retries_succ, Hlt by assumption.
    repeat split; try lia.
    + cbn [Nat.add waits Nat.iter]. fold (waits (waitSecs e) (waitMult e)).
      now rewrite Hwait.
    + cbn [Nat.add]. rewrite seq_S, fmap_app, <- Hdelays. simpl.
      unfold backoff. now rewrite <- Hwait.
  - rewrite (next_exhausted _ _ _ Hrej Hge).
    unfold bookkeeping, rejections; simpl.
    rewrite count_app, delays_app; simpl. rewrite Hrej; simpl.
    rewrite count_app, delays_app, delays_said, count_said by reflexivity.
    rewrite delays_called, count_called by (reflexivity || exact I).
    rewrite app_nil_r, retries_succ, Hge by assumption.
    repeat split; auto; lia.
Qed.

Lemma reachable_bookkeeping e s : reachable e s -> bookkeeping e s.
Proof.
  induction 1 as [|result s _ IH|args s _ IH|x s _ IH|n s _ IH].
  - unfold bookkeeping; simpl. repeat split; simpl; lia.
  - now apply bookkeeping_next.
  - now apply bookkeeping_silent.
  - unfold say. destruct (truthy (logger e)); [|exact IH].
    now apply bookkeeping_silent.
  - destruct IH as (? & ? & ? & ?). now repeat split.
Qed.

(** What the engine does stays within the reachable states. *)
Lemma reachable_completions e rs s :
  reachable e s -> reachable e (fold_left (fun s result => next e result s) rs s).
Proof.
  revert s. induction rs as [|r rs IH]; simpl; intros s Hs; [exact Hs|].
  apply IH. now constructor.
Qed.

Lemma reachable_invoke e args s : reachable e s -> reachable e (invoke e args s).
Proof.
  intros Hs. unfold invoke.
  destruct (ending_of _).
  - apply reachable_completions. now constructor.
  - do 2 constructor. apply reachable_completions. now constructor.
Qed.

Lemma reachable_handler e args : reachable e (handler e args).
Proof. apply reachable_invoke. constructor. Qed.

Lemma reachable_step e args s i : reachable e s -> reachable e (step e args s i).
Proof.
  intros Hs. destruct i as [n|result]; simpl.
  - destruct (timers s !! n); [|exact Hs].
    apply reachable_invoke. now constructor.
  - now constructor.
Qed.

Lemma reachable_run e args inputs s :
  reachable e s -> reachable e (run e args inputs s).
Proof.
  revert s. induction inputs as [|i inputs IH]; simpl; intros s Hs; [exact Hs|].
  apply IH. now apply reachable_step.
Qed.

(** ** Integer settings *)

Lemma backoff_int e a b j :
  0 < a -> 0 < b -> waitSecs e = int a -> waitMult e = int b ->
  1000 * (a * b ^ Z.of_nat j) < 2 ^ 53 ->
  waits (waitSecs e) (waitMult e) j = int (a * b ^ Z.of_nat j) /\
  backoff e j = int (1000 * (a * b ^ Z.of_nat j)).
Proof.
  intros Ha Hb Hw Hm Hj.
  assert (Hpow : 0 < b ^ Z.of_nat j) by (apply Z.pow_pos_nonneg; lia).
  assert (Hwait : waits (waitSecs e) (waitMult e) j = int (a * b ^ Z.of_nat j))
    by (rewrite Hw, Hm; apply waits_int; nia).
  split; [exact Hwait|].
  unfold backoff. rewrite Hwait, mul_int by nia. f_equal. ring.
Qed.

Lemma fmap_seq_ext {A} (f g : nat -> A) r :
  (forall i, (i < r)%nat -> f i = g i) -> f <$> seq 0 r = g <$> seq 0 r.
Proof.
  induction r as [|r IH]; intros Hfg; [reflexivity|].
  rewrite seq_S, !fmap_app, IH by (intros i Hi; apply Hfg; lia).
  simpl. now rewrite Hfg by lia.
Qed.

(** ** Attempt counter and backoff *)




(** The first example of the README: seven attempts, delays of 1, 2, 4, 8,
    16 and 32 seconds, then the failure callback with the last result. *)
Example readme_first_fails :
  let args := [VNum (int 1); VNum (int 1)] in
  let s := drain 6 Readme.first args (handler Readme.first args) in
  calls s = 7 /\ timers s = [] /\ invocations (out s) = 7%nat /\
  delays (out s) = int <$> [1000; 2000; 4000; 8000; 16000; 32000] /\
  last (out s) = Some (Failure [VNum (int 2)]) /\
  logged show_whole "myFunc" (out s) =
    ["myFunc: 1 failure - trying again in 1 seconds";
     "myFunc: 2 failures - trying again in 2 seconds";
     "myFunc: 3 failures - trying again in 4 seconds";
     "myFunc: 4 failures - trying again in 8 seconds";
     "myFunc: 5 failures - trying again in 16 seconds";
     "myFunc: 6 failures - trying again in 32 seconds";
     "myFunc: too many failures (7)"].
Proof. vm_compute. repeat split; reflexivity. Qed.

Example readme_first_succeeds :
  handler Readme.first [VNum (int 1); VNum (int 2)] =
    State (int 1) 0 []
      [Perform [VNum (int 1); VNum (int 2)]; Check [VNum (int 3)];
       Log Info Succeeded; Success [VNum (int 3)]].
Proof. reflexivity. Qed.

(** The second example: three attempts two seconds apart. *)
Example readme_second_fails :
  let args := [VNum (int 1); VNum (int 2)] in
  let s := drain 2 Readme.second args (handler Readme.second args) in
  calls s = 3 /\ timers s = [] /\ delays (out s) = int <$> [2000; 2000] /\
  last (out s) = Some (Failure [VNum (int 3); VNum (int (-1))]).
Proof. vm_compute. repeat split; reflexivity. Qed.

(** [int] is the Standard Library's conversion of an integer to a double,
    and [tenth] is the double of the source text [0.1]. *)
Example int_is_the_double :
  int 1000 = binary_normalize 53 1024 1000 0 false /\
  int (-1) = binary_normalize 53 1024 (-1) 0 false /\
  int (2 ^ 53 - 1) = binary_normalize 53 1024 (2 ^ 53 - 1) 0 false /\
  tenth = S754_finite false 7205759403792794 (-56) /\
  mul (int (2 ^ 53 - 1)) (int 1000)
    = binary_normalize 53 1024 9007199254740990976 0 false.
Proof. vm_compute. repeat split; reflexivity. Qed.

(** ** Calls, timers and the counter *)

Lemma count_next_perform e result s :
  invocations (out (next e result s)) = invocations (out s).
Proof.
  unfold invocations.
  destruct (next_cases e result s) as [Hacc | [[Hrej Hlt] | [Hrej Hge]]];
    [rewrite next_accepted | rewrite next_retry | rewrite next_exhausted];
    try assumption; simpl; rewrite count_app; simpl; rewrite count_app;
    rewrite count_said by reflexivity; rewrite ?count_called by reflexivity;
    simpl; lia.
Qed.

Lemma invoke_once e args s result :
  performer e (invocations (out s)) args = Behaviour [result] Returns ->
  invoke e args s = next e result (emit (Perform args) s).
Proof. intros Hp. unfold invoke. now rewrite Hp. Qed.

Lemma drain_idle fuel e args s : timers s = [] -> drain fuel e args s = s.
Proof. intros Hidle. destruct fuel; simpl; [reflexivity | now rewrite Hidle]. Qed.

Lemma next_frame e result w c ts tr :
  next e result (State w c ts tr) =
    let n := next e result (State w c [] []) in
    State (wait n) (calls n) (ts ++ timers n) (tr ++ out n).
Proof.
  destruct (next_cases e result (State w c ts tr)) as [Hacc | [[Hrej Hlt] | [Hrej Hge]]];
    simpl in *;
    [rewrite !next_accepted | rewrite !next_retry | rewrite !next_exhausted];
    try assumption; simpl; now rewrite ?app_nil_r.
Qed.

Lemma next_out e result s :
  out (next e result s) = out s ++ out (next e result (State (wait s) (calls s) [] [])).
Proof. destruct s as [w c ts tr]. now rewrite next_frame. Qed.

Lemma completions_out e rs : forall s,
  exists tr, out (fold_left (fun s result => next e result s) rs s) = out s ++ tr.
Proof.
  induction rs as [|r rs IH]; simpl; intros s.
  - exists []. now rewrite app_nil_r.
  - destruct (IH (next e r s)) as [tr Htr]. rewrite Htr, next_out.
    eexists. now rewrite <- app_assoc.
Qed.

Lemma completions_invocations e rs : forall s,
  invocations (out (fold_left (fun s result => next e result s) rs s))
  = invocations (out s).
Proof.
  induction rs as [|r rs IH]; simpl; intros s; [reflexivity|].
  now rewrite IH, count_next_perform.
Qed.

Lemma invoke_out e args s :
  exists tr, out (invoke e args s) = out s ++ Perform args :: tr.
Proof.
  unfold invoke.
  destruct (completions_out e
              (completions (performer e (invocations (out s)) args))
              (emit (Perform args) s)) as [tr Htr].
  destruct (ending_of _).
  - exists tr. rewrite Htr. simpl. now rewrite <- app_assoc.
  - rewrite next_out. unfold say.
    destruct (truthy (logger e)); simpl; rewrite Htr; simpl;
      repeat rewrite <- app_assoc; simpl; eauto.
Qed.

Lemma invoke_invocations e args s :
  invocations (out (invoke e args s)) = S (invocations (out s)).
Proof.
  unfold invoke.
  assert (Hfold : invocations
            (out (fold_left (fun s result => next e result s)
                    (completions (performer e (invocations (out s)) args))
                    (emit (Perform args) s))) = S (invocations (out s))).
  { rewrite completions_invocations. unfold invocations; simpl.
    rewrite count_app; simpl. lia. }
  destruct (ending_of _); [exact Hfold|].
  rewrite count_next_perform. unfold say.
  destruct (truthy (logger e)); [|exact Hfold].
  unfold invocations in *; simpl. rewrite count_app; simpl. lia.
Qed.

Lemma next_balance e result s :
  (length (timers (next e result s)) + length (delays (out s))
   = length (timers s) + length (delays (out (next e result s))))%nat.
Proof.
  destruct (next_cases e result s) as [Hacc | [[Hrej Hlt] | [Hrej Hge]]];
    [rewrite next_accepted | rewrite next_retry | rewrite next_exhausted];
    try assumption; simpl; rewrite delays_app; simpl;
    rewrite delays_app, delays_said, ?delays_called by exact I;
    simpl; rewrite !length_app; simpl; lia.
Qed.

Lemma completions_balance e rs : forall s,
  (length (timers (fold_left (fun s result => next e result s) rs s))
     + length (delays (out s))
   = length (timers s)
     + length (delays (out (fold_left (fun s result => next e result s) rs s))))%nat.
Proof.
  induction rs as [|r rs IH]; simpl; intros s; [lia|].
  pose proof (IH (next e r s)). pose proof (next_balance e r s). lia.
Qed.

Lemma invoke_balance e args s :
  (length (timers (invoke e args s)) + length (delays (out s))
   = length (timers s) + length (delays (out (invoke e args s))))%nat.
Proof.
  unfold invoke.
  pose proof (completions_balance e
                (completions (performer e (invocations (out s)) args))
                (emit (Perform args) s)) as Hfold.
  simpl in Hfold. rewrite delays_app in Hfold. simpl in Hfold.
  rewrite app_nil_r in Hfold.
  destruct (ending_of _); [exact Hfold|].
  match goal with |- context [next e [] ?t] =>
    pose proof (next_balance e [] t) as Hnext end.
  unfold say in *. destruct (truthy (logger e)); simpl in *;
    rewrite ?delays_app in Hnext; simpl in Hnext;
    rewrite ?app_nil_r in Hnext; lia.
Qed.

Lemma balanced_step e args s i : balanced s -> balanced (step e args s i).
Proof.
  unfold balanced. intros Hs. destruct i as [n|result].
  - unfold step. destruct (timers s !! n) as [t|] eqn:Hn; [|exact Hs].
    pose proof (invoke_balance e args
                  (State (wait s) (calls s) (delete n (timers s)) (out s))) as Hb.
    rewrite invoke_invocations. simpl in *.
    assert (length (delete n (timers s)) = length (timers s) - 1)%nat
      by (apply length_delete; eauto).
    assert (length (timers s) <> O)
      by (destruct (timers s); [discriminate | simpl; lia]).
    lia.
  - simpl. rewrite count_next_perform.
    pose proof (next_balance e result s). lia.
Qed.

Lemma balanced_handler e args : balanced (handler e args).
Proof.
  unfold balanced, handler. rewrite invoke_invocations.
  pose proof (invoke_balance e args (init e)). simpl in *. lia.
Qed.

Lemma balanced_run e args inputs : forall s,
  balanced s -> balanced (run e args inputs s).
Proof.
  induction inputs as [|i inputs IH]; simpl; intros s Hs; [exact Hs|].
  apply IH. now apply balanced_step.
Qed.

Lemma retries_scheduled e s :
  reachable e s ->
  length (delays (out s)) = retries e (calls s).
Proof.
  intros (_ & _ & _ & Hdelays)%reachable_bookkeeping.
  now rewrite Hdelays, length_fmap, length_seq.
Qed.

Lemma run_idle e args fuel s :
  timers s = [] -> run e args (replicate fuel (Fire 0)) s = s.
Proof.
  intros Hidle. induction fuel as [|fuel IH]; simpl; [reflexivity|].
  now rewrite Hidle.
Qed.

Lemma drain_as_run e args fuel : forall s,
  drain fuel e args s = run e args (replicate fuel (Fire 0)) s.
Proof.
  induction fuel as [|fuel IH]; intros s; [reflexivity|].
  destruct (timers s) as [|t ts] eqn:Hts.
  - rewrite run_idle by exact Hts. cbn [drain]. now rewrite Hts.
  - cbn [drain replicate]. rewrite Hts, IH. reflexivity.
Qed.

Lemma reachable_drain e args fuel s :
  reachable e s -> reachable e (drain fuel e args s).
Proof. intros Hs. rewrite drain_as_run. now apply reachable_run. Qed.

(** What one call of [next] adds to the trace. *)
Lemma next_trace e result s :
  exists l m tail,
    out (next e result s) = out s ++ Check result :: said e l m ++ tail /\
    (tail = called (success e) (Success result) \/
     tail = called (failure e) (Failure result) \/
     exists ms, tail = [SetTimeout ms]).
Proof.
  destruct (next_cases e result s) as [Hacc | [[Hrej Hlt] | [Hrej Hge]]];
    [rewrite next_accepted | rewrite next_retry | rewrite next_exhausted];
    try assumption; simpl; do 3 eexists; split; try reflexivity; eauto.
Qed.

Lemma calls_next e result s : calls s <= calls (next e result s).
Proof.
  destruct (next_cases e result s) as [Hacc | [[Hrej Hlt] | [Hrej Hge]]];
    [rewrite next_accepted | rewrite next_retry | rewrite next_exhausted];
    try assumption; simpl; lia.
Qed.

Lemma calls_completions e rs : forall s,
  calls s <= calls (fold_left (fun s result => next e result s) rs s).
Proof.
  induction rs as [|r rs IH]; simpl; intros s; [lia|].
  pose proof (IH (next e r s)). pose proof (calls_next e r s). lia.
Qed.

Lemma calls_invoke e args s : calls s <= calls (invoke e args s).
Proof.
  unfold invoke.
  pose proof (calls_completions e
                (completions (performer e (invocations (out s)) args))
                (emit (Perform args) s)) as Hfold.
  destruct (ending_of _); [exact Hfold|].
  match goal with |- context [next e [] ?t] =>
    pose proof (calls_next e [] t) as Hnext end.
  unfold say in *. destruct (truthy (logger e)); simpl in *; lia.
Qed.

Lemma calls_run e args inputs : forall s, calls s <= calls (run e args inputs s).
Proof.
  induction inputs as [|i inputs IH]; simpl; intros s; [lia|].
  specialize (IH (step e args s i)).
  assert (calls s <= calls (step e args s i)); [|lia].
  destruct i as [n|result]; unfold step.
  - destruct (timers s !! n); [|lia].
    apply (calls_invoke e args (State (wait s) (calls s) (delete n (timers s)) (out s))).
  - apply calls_next.
Qed.





(** ** Exhaustion *)

Lemma first_refusal_int N : 1 <= N < 2 ^ 53 -> first_refusal (int N) N.
Proof.
  intros HN. split; [lia|]. split; [apply below_self|].
  intros Hone. rewrite below_int by lia. apply Z.ltb_lt. lia.
Qed.

Lemma first_refusal_below m n c :
  first_refusal m n -> 1 <= c < n -> below c m = true.
Proof.
  intros (Hn & _ & Hprev) Hc.
  apply (below_mono c (n - 1)); [lia | apply Hprev; lia].
Qed.

Lemma first_refusal_refuses m n c :
  first_refusal m n -> n <= c -> below c m = false.
Proof. intros (_ & Hn & _) Hc. now apply (below_refuses n c). Qed.

Section Rejected.

(** A performer that completes each of its calls exactly once, before it
    returns, with a result the checker rejects. *)
Variables (e : env) (args : list value) (res : nat -> list value).
Hypothesis exactly_once : forall n, performer e n args = Behaviour [res n] Returns.
Hypothesis rejected : forall n, is_true (checker e (res n)) = false.

Lemma attempt j w tr :
  invocations tr = j -> count is_failure tr = O ->
  after e res (S j) (invoke e args (State w (Z.of_nat j) [] tr)).
Proof.
  intros Hinv Hfail.
  rewrite invoke_once with (result := res j) by (simpl; now rewrite Hinv).
  unfold after. destruct (below (Z.of_nat (S j)) (maxCalls e)) eqn:Hlt.
  - rewrite next_retry
      by (simpl; auto; now replace (Z.of_nat j + 1) with (Z.of_nat (S j)) by lia).
    unfold pending; simpl. unfold invocations in *.
    rewrite !count_app; simpl. rewrite !count_app, !count_said by reflexivity.
    simpl. repeat split; try lia. eauto.
  - rewrite next_exhausted
      by (simpl; auto; now replace (Z.of_nat j + 1) with (Z.of_nat (S j)) by lia).
    unfold exhausted_at; simpl. unfold invocations in *.
    rewrite !count_app; simpl.
    rewrite !count_app, count_said, count_called by reflexivity.
    replace (Z.of_nat j + 1) with (Z.of_nat (S j)) by lia.
    repeat split; try lia.
    exists (tr ++ [Perform args]). split; [|reflexivity].
    rewrite count_app; simpl. lia.
Qed.

Lemma drain_exhausts n d : forall j s fuel,
  first_refusal (maxCalls e) (Z.of_nat n) ->
  (j + d = n)%nat -> (d <= fuel)%nat -> (1 <= j)%nat ->
  after e res j s ->
  exhausted_at e res n (drain fuel e args s).
Proof.
  induction d as [|d IH]; intros j s fuel Hn Hsum Hfuel Hj Hafter;
    unfold after in Hafter.
  - replace j with n in * by lia.
    rewrite (first_refusal_refuses _ _ _ Hn) in Hafter by lia.
    rewrite drain_idle; [exact Hafter | apply Hafter].
  - rewrite (first_refusal_below _ _ _ Hn) in Hafter by lia.
    destruct Hafter as (Hcalls & Hinv & Hfail & t & Ht).
    destruct fuel as [|fuel]; [lia|]. simpl. rewrite Ht. simpl.
    apply (IH (S j)); [exact Hn | lia | lia | lia |].
    rewrite Hcalls. now apply attempt.
Qed.

Lemma handler_exhausts n fuel :
  first_refusal (maxCalls e) n -> (Z.to_nat n <= S fuel)%nat ->
  exhausted_at e res (Z.to_nat n) (drain fuel e args (handler e args)).
Proof.
  intros Hn Hfuel. pose proof Hn as (H1 & _).
  apply (drain_exhausts (Z.to_nat n) (Z.to_nat n - 1) 1);
    [now rewrite Z2Nat.id by lia | lia | lia | lia |].
  unfold handler, init. now apply (attempt O).
Qed.

End Rejected.






(** With [maxCalls: 2.5] the counter values 1 and 2 are below the limit
    and 3 is the first that is not: three attempts, two timers. *)
Example two_and_a_half_attempts :
  let e := Cases.two_and_a_half in
  let s := drain 5 e [] (handler e []) in
  first_refusal (maxCalls e) 3 /\
  calls s = 3 /\ invocations (out s) = 3%nat /\
  delays (out s) = int <$> [1000; 2000] /\
  last (out s) = Some (Failure []).
Proof.
  split; [|vm_compute; repeat split; reflexivity].
  split; [lia|]. split; [reflexivity | intros _; reflexivity].
Qed.

(** ** Acceptance *)

(** C3. A completion is accepted exactly when the checker returns the
    boolean [true]: then the success callback, if it is a function, is
    called with the result and neither the counter nor the timers change.
    Any other return value, [1] and a non-empty string included although
    they are truthy, counts as a rejection: the counter is incremented, the
    success callback is not called, and a retry is scheduled while the
    counter is below [maxCalls]. *)
Theorem acceptance_is_strict e result s :
  (is_true (checker e result) = true <-> checker e result = VBool true) /\
  (checker e result = VBool true ->
     next e result s =
       State (wait s) (calls s) (timers s)
         (out s ++ Check result :: said e Info Succeeded
                ++ called (success e) (Success result))) /\
  (checker e result <> VBool true ->
     calls (next e result s) = calls s + 1 /\
     count is_success (out (next e result s)) = count is_success (out s) /\
     (below (calls s + 1) (maxCalls e) = true ->
        timers (next e result s) = timers s ++ [mul (wait s) (int 1000)])) /\
  (checker e result = VNum (int 1) \/ checker e result = VStr "ok" ->
     truthy (checker e result) = true /\
     calls (next e result s) = calls s + 1).
Proof.
  assert (Hrejected : checker e result <> VBool true ->
    calls (next e result s) = calls s + 1 /\
    count is_success (out (next e result s)) = count is_success (out s) /\
    (below (calls s + 1) (maxCalls e) = true ->
       timers (next e result s) = timers s ++ [mul (wait s) (int 1000)])).
  { intros Hrej%is_true_false.
    destruct (below (calls s + 1) (maxCalls e)) eqn:Hlt.
    - rewrite next_retry by assumption; simpl.
      rewrite count_app; simpl. rewrite count_app, count_said by reflexivity.
      simpl. repeat split; lia.
    - rewrite next_exhausted by assumption; simpl.
      rewrite count_app; simpl.
      rewrite count_app, count_said, count_called by reflexivity.
      repeat split; (lia || discriminate). }
  split; [apply is_true_iff|]. split; [|split; [exact Hrejected|]].
  - intros Hacc%is_true_iff. now apply next_accepted.
  - intros [Hv|Hv]; (split; [now rewrite Hv | apply Hrejected; congruence]).
Qed.

Lemma acceptance_is_strict_witness :
  let e := with_performer Readme.first (fun _ _ => Behaviour [] Returns) in
  let e1 := Env (fun _ => VNum (int 1)) (performer e) (success e) (failure e)
              (name e) (logger e) (int 1) (int 2) (int 7) in
  next Readme.first [VNum (int 3)] (init Readme.first) =
    State (int 1) 0 []
      [Check [VNum (int 3)]; Log Info Succeeded; Success [VNum (int 3)]] /\
  truthy (checker e1 [VNum (int 3)]) = true /\
  calls (next e1 [VNum (int 3)] (init e1)) = 0 + 1.
Proof.
  intros e e1. split.
  - apply (proj1 (proj2 (acceptance_is_strict Readme.first [VNum (int 3)]
                           (init Readme.first)))).
    reflexivity.
  - apply (proj2 (proj2 (proj2 (acceptance_is_strict e1 [VNum (int 3)] (init e1))))).
    left. reflexivity.
Defined.

(** ** Completions are processed one by one *)

(** C10. Nothing in the engine remembers that a call of the performer has
    already completed. Two accepted completions in a row run the success
    branch twice; two rejected completions at or past exhaustion run the
    failure branch twice, the counter going on from where it was; and the
    completions a performer makes within one call are fed to [next] one
    after the other, each from the state the one before it left. *)
Theorem completions_are_independent e :
  (forall s r r',
     is_true (checker e r) = true -> is_true (checker e r') = true ->
     next e r' (next e r s) =
       State (wait s) (calls s) (timers s)
         (out s ++ (Check r :: said e Info Succeeded
                           ++ called (success e) (Success r))
                ++ Check r' :: said e Info Succeeded
                           ++ called (success e) (Success r'))) /\
  (forall s r r',
     is_true (checker e r) = false -> is_true (checker e r') = false ->
     below (calls s + 1) (maxCalls e) = false ->
     next e r' (next e r s) =
       State (wait s) (calls s + 2) (timers s)
         (out s ++ (Check r :: said e Warn (TooMany (calls s + 1))
                           ++ called (failure e) (Failure r))
                ++ Check r' :: said e Warn (TooMany (calls s + 2))
                            ++ called (failure e) (Failure r'))) /\
  (forall args s rs,
     performer e (invocations (out s)) args = Behaviour rs Returns ->
     invoke e args s =
       fold_left (fun s result => next e result s) rs (emit (Perform args) s)).
Proof.
  split; [|split].
  - intros s r r' Hr Hr'.
    rewrite (next_accepted _ r' _ Hr'), (next_accepted _ r _ Hr).
    cbn [wait calls timers out]. now rewrite <- app_assoc.
  - intros s r r' Hr Hr' Hmax.
    rewrite (next_exhausted _ r' _ Hr');
      rewrite (next_exhausted _ r _ Hr Hmax); cbn [wait calls timers out];
      [|apply (below_refuses (calls s + 1)); [lia | exact Hmax]].
    replace (calls s + 1 + 1) with (calls s + 2) by lia.
    now rewrite <- app_assoc.
  - intros args s rs Hp. unfold invoke. now rewrite Hp.
Qed.

Lemma completions_are_independent_witness :
  let e := with_performer Readme.first
             (fun _ _ => Behaviour [[VNum (int 3)]; [VNum (int 3)]] Returns) in
  out (invoke e [] (init e)) =
    [Perform []; Check [VNum (int 3)]; Log Info Succeeded; Success [VNum (int 3)];
     Check [VNum (int 3)]; Log Info Succeeded; Success [VNum (int 3)]] /\
  out (next e [VNum (int 2)] (next e [VNum (int 2)] (State (int 64) 6 [] []))) =
    [Check [VNum (int 2)]; Log Warn (TooMany 7); Failure [VNum (int 2)];
     Check [VNum (int 2)]; Log Warn (TooMany 8); Failure [VNum (int 2)]].
Proof.
  intros e. split.
  - rewrite (proj2 (proj2 (completions_are_independent e)) []
               (init e) [[VNum (int 3)]; [VNum (int 3)]] eq_refl).
    simpl fold_left.
    rewrite (proj1 (completions_are_independent e) _ [VNum (int 3)] [VNum (int 3)]
               eq_refl eq_refl).
    reflexivity.
  - rewrite (proj1 (proj2 (completions_are_independent e)) (State (int 64) 6 [] [])
               [VNum (int 2)] [VNum (int 2)] eq_refl eq_refl); [reflexivity | reflexivity].
Defined.

(** ** A throwing performer *)







Section Quiet.

Variable e : env.
Variable args : list value.









End Quiet.



(** A performer that always throws, run to the end: seven attempts, the
    same six delays, and the failure callback called with no values. *)
Example always_throwing :
  let e := with_performer Readme.first (fun _ _ => Behaviour [] (Throws "boom")) in
  let s := drain 6 e [] (handler e []) in
  calls s = 7 /\
  delays (out s) = int <$> [1000; 2000; 4000; 8000; 16000; 32000] /\
  last (out s) = Some (Failure []) /\
  hd_error (logged show_whole "myFunc" (out s))
    = Some ("myFunc: exception " +:+ dquote +:+ "boom" +:+ dquote).
Proof. vm_compute. repeat split; reflexivity. Qed.

(** ** The first attempt *)

(** C9, as the code has it. The handler call itself makes the first call
    of the performer, and exactly that one, before it returns; a
    completion never calls the performer, it only schedules a timer; and
    each later call of the performer is made when one of the pending timers
    fires, one call per timer. *)
Theorem first_attempt_is_synchronous e args :
  (exists tr, out (handler e args) = Perform args :: tr) /\
  invocations (out (handler e args)) = 1%nat /\
  (forall result s, invocations (out (next e result s)) = invocations (out s)) /\
  (forall s n,
     is_Some (timers s !! n) ->
     invocations (out (step e args s (Fire n))) = S (invocations (out s)) /\
     length (timers s) <> O) /\
  (forall s n, timers s !! n = None -> step e args s (Fire n) = s).
Proof.
  split; [|split; [|split; [|split]]].
  - destruct (invoke_out e args (init e)) as [tr Htr]. now exists tr.
  - unfold handler. now rewrite invoke_invocations.
  - intros. apply count_next_perform.
  - intros s n [t Ht]. simpl. rewrite Ht. rewrite invoke_invocations. simpl.
    split; [reflexivity|]. destruct (timers s); [discriminate | simpl; lia].
  - intros s n Hn. simpl. now rewrite Hn.
Qed.

Lemma first_attempt_is_synchronous_witness :
  let e := Readme.first in
  let s := handler e [VNum (int 1); VNum (int 1)] in
  invocations (out (step e [VNum (int 1); VNum (int 1)] s (Fire 0))) = S (invocations (out s)) /\
  length (timers s) <> O.
Proof.
  intros e s.
  apply (proj1 (proj2 (proj2 (proj2
           (first_attempt_is_synchronous e [VNum (int 1); VNum (int 1)]))))).
  exists (int 1000). reflexivity.
Defined.

(** C9 as worded fails: when the handler call returns, the performer has
    been called, and here the checker and the success callback as well. *)
Lemma handler_call_counterexample :
  ~ (forall e args, invocations (out (handler e args)) = O) /\
  out (handler Readme.first [VNum (int 1); VNum (int 2)]) =
    [Perform [VNum (int 1); VNum (int 2)]; Check [VNum (int 3)];
     Log Info Succeeded; Success [VNum (int 3)]].
Proof.
  split; [|reflexivity].
  intros Hclaim. specialize (Hclaim Readme.first [VNum (int 1); VNum (int 2)]). discriminate Hclaim.
Qed.

(** ** Construction *)

Lemma fluent_thrown c cs h :
  is_function c = false -> fluent c cs h = Some (h, Thrown (VStr sig)).
Proof. intros Hc. unfold fluent, ntil. now rewrite Hc. Qed.

Lemma ntil_thrown c p s f o h :
  is_function c = false -> ntil c p s f o h = (h, Thrown (VStr sig)).
Proof. intros Hc. unfold ntil. now rewrite Hc. Qed.

(** C8. When the first argument is not a function, [ntil] throws [sig],
    the message that spells out the expected call, whatever the other
    arguments are; the store is left as it was (no builder is made) and no
    handler is returned. The fluent form throws at the same point, before
    any setter is called. *)
Theorem checker_must_be_function c p s f o h :
  is_function c = false ->
  ntil c p s f o h = (h, Thrown (VStr sig)) /\
  sig = "Check params: function ntil(checker, performer, success, failure, opts)"%string /\
  forall cs, fluent c cs h = Some (h, Thrown (VStr sig)).
Proof.
  intros Hc. split; [now apply ntil_thrown|]. split; [reflexivity|].
  intros cs. now apply fluent_thrown.
Qed.

Lemma checker_must_be_function_witness :
  ntil (VObj []) (VFun (Func "myFunc" 1)) VUndefined VUndefined VUndefined []
    = ([], Thrown (VStr sig)) /\
  sig = "Check params: function ntil(checker, performer, success, failure, opts)"%string /\
  forall cs, fluent (VObj []) cs [] = Some ([], Thrown (VStr sig)).
Proof.
  apply (checker_must_be_function (VObj []) (VFun (Func "myFunc" 1))).
  reflexivity.
Defined.

(** The options of a second argument that is not a function are read as
    they would be with [|| {}] already applied. *)
Lemma get_or_empty v k : is_function v = false -> get (js_or v (VObj [])) k = get v k.
Proof. destruct v as [| |[]|n|x| |]; unfold js_or; simpl; try reflexivity; try discriminate.
  - now destruct (nonzero n).
  - now destruct (String.eqb x "").
Qed.

Lemma alter_last (f : chain -> chain) (h : heap) ch :
  alter f (length h) (h ++ [ch]) = h ++ [f ch].
Proof.
  replace (length h) with (length h + 0)%nat at 1 by lia.
  now rewrite alter_app_r.
Qed.

Lemma lookup_last (h : heap) ch : (h ++ [ch]) !! length h = Some ch.
Proof. now apply list_lookup_middle. Qed.

(** C7. With a function as checker and anything but a function as second
    argument, [ntil] returns a new builder whose checker is the first
    argument and whose options are the second, the three remaining
    arguments being dropped. Once [exec] has supplied a performer, [func]
    is the direct call with those options, so the handler it returns has
    its settings resolved from them. *)
Theorem second_argument_becomes_options c v s f o h :
  is_function c = true ->
  is_function v = false ->
  ntil c v s f o h
    = (h ++ [MkChain c v VUndefined VUndefined VUndefined], Builder (length h)) /\
  forall p,
    let h1 := (ntil c v s f o h).1 in
    let '(h2, b) := Chain.exec (length h) p h1 in
    b = length h /\
    Chain.func b h2 = Some (ntil c p VUndefined VUndefined v h2) /\
    (is_function p = true ->
     exists cl,
       Chain.func b h2 = Some (h2, Handler cl) /\
       cl_checker cl = c /\ cl_performer cl = p /\
       cl_logger cl = get v "logger" /\
       cl_waitSecs cl = js_or (get v "waitSecs") (VNum (int 1)) /\
       cl_waitMult cl = js_or (get v "waitMult") (VNum (int 2)) /\
       cl_maxCalls cl = js_or (get v "maxCalls") (VNum (int 7)) /\
       cl_name cl = js_or (get v "name")
                      (js_or (get p "name") (VStr "anonymous function"))).
Proof.
  intros Hc Hv.
  assert (Hntil : ntil c v s f o h
    = (h ++ [MkChain c v VUndefined VUndefined VUndefined], Builder (length h))).
  { unfold ntil. now rewrite Hc, Hv. }
  split; [exact Hntil|].
  intros p. rewrite Hntil. cbn [fst]. unfold Chain.exec. rewrite alter_last.
  split; [reflexivity|]. unfold Chain.func. rewrite lookup_last. cbn.
  split; [reflexivity|].
  intros Hp. unfold ntil. rewrite Hc, Hp. cbn.
  eexists. split; [reflexivity|]. cbn.
  rewrite !get_or_empty by assumption. repeat split; reflexivity.
Qed.

Lemma second_argument_becomes_options_witness :
  let c := VFun (Func "check" 0) in
  let v := VObj [("maxCalls"%string, VNum (int 3))] in
  ntil c v VUndefined VUndefined VUndefined []
    = ([MkChain c v VUndefined VUndefined VUndefined], Builder O).
Proof.
  intros c v.
  apply (second_argument_becomes_options c v VUndefined VUndefined VUndefined []);
    reflexivity.
Defined.

(** ** The fluent chain and the direct call *)

Lemma call_setter_this this c h : (call_setter this c h).2 = this.
Proof. now destruct c. Qed.

Lemma call_setters_last cs : forall (h : heap) ch,
  call_setters (length h) cs (h ++ [ch]) = (h ++ [fold_left write cs ch], length h).
Proof.
  induction cs as [|c cs IH]; intros h ch; simpl; [reflexivity|].
  destruct c; simpl; unfold Chain.opts, Chain.exec, Chain.done, Chain.fail;
    rewrite alter_last; apply IH.
Qed.

Lemma write_slots cs : forall ch,
  fold_left write cs ch =
    MkChain (chain_checker ch)
      (slot pick_opts (chain_opts ch) cs)
      (slot pick_exec (chain_perform ch) cs)
      (slot pick_done (chain_success ch) cs)
      (slot pick_fail (chain_failure ch) cs).
Proof.
  unfold slot. induction cs as [|c cs IH]; intros ch; simpl.
  - now destruct ch.
  - rewrite IH. now destruct c.
Qed.

Lemma write_comm a b ch :
  slot_of a <> slot_of b -> write (write ch a) b = write (write ch b) a.
Proof. destruct a, b; simpl; intros Hne; try reflexivity; congruence. Qed.

Lemma writes_permutation cs cs' :
  cs ≡ₚ cs' -> NoDup (slot_of <$> cs) ->
  forall ch, fold_left write cs ch = fold_left write cs' ch.
Proof.
  induction 1 as [|x l l' Hperm IH|x y l|l l' l'' Hperm1 IH1 Hperm2 IH2];
    intros Hnodup ch; simpl.
  - reflexivity.
  - apply IH. rewrite fmap_cons in Hnodup. now apply NoDup_cons in Hnodup.
  - rewrite write_comm; [reflexivity|].
    rewrite !fmap_cons in Hnodup. apply NoDup_cons in Hnodup as [Hy _].
    intros Heq. apply Hy. rewrite Heq. now left.
  - rewrite IH1 by assumption. apply IH2. now rewrite <- Hperm1.
Qed.

(** The result of [ntil] does not depend on the builders already in the
    store. *)
Lemma ntil_any_heap c p s f o h h' :
  same_result (ntil c p s f o h) (ntil c p s f o h').
Proof.
  unfold ntil, new_chain, same_result.
  destruct (is_function c), (is_function p); simpl; try reflexivity.
  rewrite !lookup_last. split; [eauto | reflexivity].
Qed.

Lemma fluent_slots c cs h :
  is_function c = true ->
  fluent c cs h =
    Some (ntil c (slot pick_exec VUndefined cs) (slot pick_done VUndefined cs)
            (slot pick_fail VUndefined cs) (slot pick_opts VUndefined cs)
            (h ++ [fold_left write cs
                     (MkChain c VUndefined VUndefined VUndefined VUndefined)])).
Proof.
  intros Hc. unfold fluent.
  replace (ntil c VUndefined VUndefined VUndefined VUndefined h)
    with (h ++ [MkChain c VUndefined VUndefined VUndefined VUndefined],
          Builder (length h))
    by (unfold ntil; now rewrite Hc).
  rewrite call_setters_last. unfold Chain.func. rewrite lookup_last.
  now rewrite write_slots.
Qed.

(** C6. The chain [ntil(checker).exec(p).done(s).fail(f).opts(o).func()]
    gives what the direct call [ntil(checker, p, s, f, o)] gives: the same
    handler closure when checker and [p] are functions (the same throw, or
    a builder in the same state, when they are not). So does the chain with
    its four setters in any other order; a chain of any setters, repeated
    or left out, gives what the direct call gives on the last value written
    to each slot ([undefined] for a slot never written); and every setter
    returns the object it was called on. *)
Theorem fluent_is_direct c p s f o h :
  same_outcome (fluent c [Exec p; Done s; Fail f; Opts o] h) (ntil c p s f o h) /\
  (forall cs,
     cs ≡ₚ [Exec p; Done s; Fail f; Opts o] ->
     same_outcome (fluent c cs h) (ntil c p s f o h)) /\
  (forall cs,
     same_outcome (fluent c cs h)
       (ntil c (slot pick_exec VUndefined cs) (slot pick_done VUndefined cs)
          (slot pick_fail VUndefined cs) (slot pick_opts VUndefined cs) h)) /\
  (forall this st h', (call_setter this st h').2 = this) /\
  (is_function c = true -> is_function p = true ->
   exists h' cl,
     fluent c [Exec p; Done s; Fail f; Opts o] h = Some (h', Handler cl) /\
     ntil c p s f o h = (h, Handler cl)).
Proof.
  assert (Hany : forall cs,
    same_outcome (fluent c cs h)
      (ntil c (slot pick_exec VUndefined cs) (slot pick_done VUndefined cs)
         (slot pick_fail VUndefined cs) (slot pick_opts VUndefined cs) h)).
  { intros cs. destruct (is_function c) eqn:Hc.
    - rewrite fluent_slots by assumption. apply ntil_any_heap.
    - now rewrite fluent_thrown, ntil_thrown. }
  assert (Hperm : forall cs,
    cs ≡ₚ [Exec p; Done s; Fail f; Opts o] ->
    same_outcome (fluent c cs h) (ntil c p s f o h)).
  { intros cs Hcs. destruct (is_function c) eqn:Hc;
      [|now rewrite fluent_thrown, ntil_thrown].
    rewrite fluent_slots by assumption.
    pose proof (writes_permutation [Exec p; Done s; Fail f; Opts o] cs) as Hw.
    specialize (Hw ltac:(now symmetry)).
    specialize (Hw ltac:(simpl; repeat (apply NoDup_cons; split;
                  [rewrite ?elem_of_cons, elem_of_nil; intuition discriminate|]);
                  apply NoDup_nil_2)).
    specialize (Hw (MkChain c VUndefined VUndefined VUndefined VUndefined)).
    rewrite write_slots in Hw. cbn in Hw. rewrite write_slots in Hw.
    injection Hw as Ho Hp Hs Hf. cbn in Ho, Hp, Hs, Hf.
    rewrite <- Ho, <- Hp, <- Hs, <- Hf. apply ntil_any_heap. }
  split; [now apply Hperm|]. split; [exact Hperm|]. split; [exact Hany|].
  split; [intros; apply call_setter_this|].
  intros Hc Hp. rewrite fluent_slots by assumption. cbn.
  unfold ntil. rewrite Hc, Hp. cbn. eauto.
Qed.

Lemma fluent_is_direct_witness :
  let c := VFun (Func "check" 0) in
  let p := VFun (Func "myFunc" 1) in
  let s := Readme.callback "done" in
  let f := Readme.callback "fail" in
  let o := VObj [("logger"%string, VObj [])] in
  same_outcome (fluent c [Exec p; Done s; Fail f; Opts o] []) (ntil c p s f o []) /\
  same_outcome (fluent c [Opts o; Fail f; Done s; Exec p] []) (ntil c p s f o []).
Proof.
  intros c p s f o.
  pose proof (fluent_is_direct c p s f o []) as (Hchain & Hperm & _).
  split; [exact Hchain|].
  apply Hperm.
  exact (Permutation_sym (Permutation_rev [Exec p; Done s; Fail f; Opts o])).
Defined.

(** ** Defaults *)

(** The settings of the handler that [ntil] returns. *)
Lemma handler_of_settings call conduct c p s f o h e :
  handler_of call conduct (ntil c p s f o h) = Some e ->
  let opts := js_or o (VObj []) in
  VNum (waitSecs e) = js_or (get opts "waitSecs") (VNum (int 1)) /\
  VNum (waitMult e) = js_or (get opts "waitMult") (VNum (int 2)) /\
  VNum (maxCalls e) = js_or (get opts "maxCalls") (VNum (int 7)) /\
  success e = s /\ failure e = f /\ logger e = get opts "logger".
Proof.
  unfold handler_of, ntil, new_chain.
  destruct (is_function c); simpl; [|discriminate].
  destruct (is_function p); simpl; [|discriminate].
  unfold instantiate; simpl.
  repeat case_match; try discriminate.
  intros [= <-]. simpl. repeat split; congruence.
Qed.

(** A double below zero is neither a zero nor NaN: it is truthy. *)
Lemma negative_truthy n : lt n (int 0) = true -> truthy (VNum n) = true.
Proof. now destruct n as [[]| | |]. Qed.

(** C4, as the code has it. A [maxCalls] of 0 is falsy, so
    [opts.maxCalls || 7] takes the default: the handler is the one made
    with [maxCalls] absent, its first rejection schedules a retry after
    [waitSecs] seconds, and with a performer that completes each call once
    with a rejected result it gives up at the seventh. Every falsy value of
    [maxCalls], [waitSecs] or [waitMult] takes the default in the same way,
    not only an absent field. A negative [maxCalls] is truthy and is kept:
    then the first rejection already fails the comparison
    [calls < maxCalls], no retry is scheduled and the failure callback is
    called. *)
Theorem falsy_maxCalls_takes_default call conduct c p s f o h e args res :
  handler_of call conduct (ntil c p s f o h) = Some e ->
  let opts := js_or o (VObj []) in
  (truthy (get opts "maxCalls") = false -> maxCalls e = int 7) /\
  (truthy (get opts "waitSecs") = false -> waitSecs e = int 1) /\
  (truthy (get opts "waitMult") = false -> waitMult e = int 2) /\
  (get opts "maxCalls" = VNum (int 0) ->
     maxCalls e = int 7 /\
     (forall result,
        is_true (checker e result) = false ->
        timers (next e result (init e)) = [mul (waitSecs e) (int 1000)]) /\
     ((forall n, performer e n args = Behaviour [res n] Returns) ->
      (forall n, is_true (checker e (res n)) = false) ->
      exhausted_at e res 7 (drain 6 e args (handler e args)))) /\
  (forall n,
     lt n (int 0) = true -> get opts "maxCalls" = VNum n ->
     maxCalls e = n /\
     forall result,
       is_true (checker e result) = false ->
       next e result (init e) =
         State (waitSecs e) 1 []
           (Check result :: said e Warn (TooMany 1)
                         ++ called (failure e) (Failure result))).
Proof.
  intros He opts.
  pose proof (handler_of_settings _ _ _ _ _ _ _ _ _ He)
    as (Hsecs & Hmult & Hmax & _).
  fold opts in Hsecs, Hmult, Hmax. unfold js_or in Hsecs, Hmult, Hmax.
  assert (Hdefault : truthy (get opts "maxCalls") = false -> maxCalls e = int 7)
    by (intros Hf; rewrite Hf in Hmax; congruence).
  split; [exact Hdefault|].
  split; [intros Hf; rewrite Hf in Hsecs; congruence|].
  split; [intros Hf; rewrite Hf in Hmult; congruence|].
  split.
  - intros H0.
    assert (H7 : maxCalls e = int 7) by (apply Hdefault; now rewrite H0).
    split; [exact H7|]. split.
    + intros result Hrej.
      rewrite next_retry by (assumption || (rewrite H7; reflexivity)).
      reflexivity.
    + intros Honce Hrej.
      change 7%nat with (Z.to_nat 7).
      apply handler_exhausts; [exact Honce | exact Hrej | | simpl; lia].
      rewrite H7. apply first_refusal_int. lia.
  - intros n Hneg Hn. rewrite Hn in Hmax.
    rewrite (negative_truthy n Hneg) in Hmax.
    assert (Hk : maxCalls e = n) by congruence.
    split; [exact Hk|].
    intros result Hrej.
    rewrite next_exhausted
      by (assumption || (rewrite Hk; apply negative_refuses; [assumption|simpl; lia])).
    reflexivity.
Qed.

Lemma falsy_maxCalls_takes_default_witness :
  let e := Env Readme.is_three Readme.myFunc VUndefined VUndefined
             "myFunc" VUndefined (int 1) (int 2) (int 7) in
  maxCalls e = int 7 /\
  timers (next e [VNum (int 2)] (init e)) = [mul (waitSecs e) (int 1000)] /\
  exhausted_at e (fun _ => [VNum (int 2)]) 7
    (drain 6 e [VNum (int 1); VNum (int 1)]
       (handler e [VNum (int 1); VNum (int 1)])).
Proof.
  intros e.
  destruct (falsy_maxCalls_takes_default
              (fun _ => Readme.is_three) (fun _ => Readme.myFunc)
              (VFun (Func "check" 0)) (VFun (Func "myFunc" 1))
              VUndefined VUndefined
              (VObj [("maxCalls"%string, VNum (int 0))]) []
              e [VNum (int 1); VNum (int 1)] (fun _ => [VNum (int 2)]) eq_refl)
    as (_ & _ & _ & Hzero & _).
  destruct (Hzero eq_refl) as (Hseven & Hretry & Hrun).
  split; [exact Hseven|]. split.
  - apply Hretry. reflexivity.
  - apply Hrun; intros n; reflexivity.
Defined.

(** C4 as worded fails: with [maxCalls: 0] the handler has the default
    limit of 7, and its first rejected result schedules a retry. *)
Lemma zero_maxCalls_counterexample :
  let c := VFun (Func "check" 0) in
  let p := VFun (Func "myFunc" 1) in
  let o := VObj [("maxCalls"%string, VNum (int 0))] in
  exists e,
    handler_of (fun _ => Readme.is_three) (fun _ => Readme.myFunc)
      (ntil c p VUndefined VUndefined o []) = Some e /\
    maxCalls e = int 7 /\
    timers (handler e [VNum (int 1); VNum (int 1)]) = [int 1000] /\
    ~ (forall result,
         is_true (checker e result) = false ->
         timers (next e result (init e)) = []).
Proof.
  eexists. split; [reflexivity|]. split; [reflexivity|]. split; [reflexivity|].
  intros Hclaim. specialize (Hclaim [VNum (int 2)] eq_refl). discriminate Hclaim.
Qed.

(** The other falsy numbers, minus zero and NaN, take the defaults as 0
    does. *)
Example falsy_numbers :
  let c := VFun (Func "check" 0) in
  let p := VFun (Func "myFunc" 1) in
  let o := VObj [("maxCalls"%string, VNum (S754_zero true));
                 ("waitSecs"%string, VNum S754_nan);
                 ("waitMult"%string, VNum (int 0))] in
  exists e,
    handler_of (fun _ => Readme.is_three) (fun _ => Readme.myFunc)
      (ntil c p VUndefined VUndefined o []) = Some e /\
    waitSecs e = int 1 /\ waitMult e = int 2 /\ maxCalls e = int 7.
Proof. eexists. repeat split; reflexivity. Qed.

(** * Further properties *)

(** ** How often the performer is called *)

(** A counter that has reached an integer limit is not below it. *)
Lemma below_limit a N : 0 <= a -> N < 2 ^ 53 -> N <= a -> below a (int N) = false.
Proof.
  intros Ha HN Hle. destruct (Z.lt_ge_cases N 0) as [Hneg|Hpos].
  - apply negative_refuses; [|exact Ha]. now destruct N.
  - rewrite below_int by lia. now apply Z.ltb_ge.
Qed.

(** X1. Whatever the performer does and in whatever order timers fire and
    completions arrive, an invocation has called the performer once per
    timer that has fired, plus once at the start. If the counter value [n],
    at least 1, is not below [maxCalls], it has scheduled at most [n - 1]
    timers and called the performer at most [n] times: at most [maxCalls]
    times when [maxCalls] is an integer of at least 1, once when [maxCalls]
    is below 1 or NaN, three times when [maxCalls] is 2.5. *)
Theorem performer_calls_bounded e args inputs :
  let s := run e args inputs (handler e args) in
  (invocations (out s) + length (timers s) = 1 + length (delays (out s)))%nat /\
  (forall n,
     (1 <= n)%nat -> Z.of_nat n <= 2 ^ 53 ->
     below (Z.of_nat n) (maxCalls e) = false ->
     (length (delays (out s)) <= n - 1)%nat /\
     (invocations (out s) <= n)%nat) /\
  (forall N,
     N < 2 ^ 53 -> maxCalls e = int N ->
     Z.of_nat (length (delays (out s))) <= Z.max 0 (N - 1) /\
     Z.of_nat (invocations (out s)) <= Z.max 1 N).
Proof.
  intros s.
  assert (Hb : balanced s) by apply balanced_run, balanced_handler.
  assert (Hr : reachable e s) by apply reachable_run, reachable_handler.
  pose proof (retries_scheduled e s Hr) as Hlen.
  unfold balanced in Hb. unfold retries in Hlen.
  assert (Hbound : forall n,
     (1 <= n)%nat -> Z.of_nat n <= 2 ^ 53 ->
     below (Z.of_nat n) (maxCalls e) = false ->
     (length (delays (out s)) <= n - 1)%nat /\
     (invocations (out s) <= n)%nat).
  { intros n Hn _ Hrefused.
    pose proof (retries_upto_bound (maxCalls e) n (Z.to_nat (calls s)) Hn Hrefused).
    lia. }
  split; [exact Hb|]. split; [exact Hbound|].
  intros N HN Hmax.
  destruct (Hbound (Z.to_nat (Z.max 1 N))) as [Hd Hi]; [lia | lia | | split; lia].
  rewrite Hmax, Z2Nat.id by lia. apply below_limit; lia.
Qed.

Lemma performer_calls_bounded_witness :
  let e := Cases.two_and_a_half in
  let s := run e [] [Fire 0; Fire 0; Fire 0] (handler e []) in
  (length (delays (out s)) <= 3 - 1)%nat /\ (invocations (out s) <= 3)%nat.
Proof.
  intros e s.
  apply (proj1 (proj2 (performer_calls_bounded e [] [Fire 0; Fire 0; Fire 0])) 3%nat);
    [lia | simpl; lia | reflexivity].
Defined.

(** ** Firing the timers until none is left *)

Lemma settles e args fuel : forall s,
  balanced s -> reachable e s ->
  (1 <= invocations (out s))%nat ->
  below (Z.of_nat (invocations (out s) + fuel)) (maxCalls e) = false ->
  timers (drain fuel e args s) = [].
Proof.
  induction fuel as [|fuel IH]; intros s Hb Hr Hone Hfuel.
  - simpl. pose proof (retries_scheduled e s Hr) as Hlen.
    rewrite Nat.add_0_r in Hfuel.
    pose proof (retries_upto_bound (maxCalls e) _ (Z.to_nat (calls s)) Hone Hfuel).
    unfold balanced in Hb. unfold retries in Hlen.
    destruct (timers s); [reflexivity | simpl in Hb; lia].
  - cbn [drain]. destruct (timers s) as [|t ts] eqn:Hts; [exact Hts|].
    assert (Hinv : invocations (out (step e args s (Fire 0)))
                   = S (invocations (out s))).
    { unfold step. rewrite Hts. cbn [lookup list_lookup].
      now rewrite invoke_invocations. }
    apply IH.
    + now apply balanced_step.
    + now apply reachable_step.
    + lia.
    + rewrite Hinv. now replace (S (invocations (out s)) + fuel)%nat
        with (invocations (out s) + S fuel)%nat by lia.
Qed.

(** X2. With a performer that makes its completions before it returns, an
    invocation always comes to rest: once as many timers have fired that
    one more attempt would bring the counter to a value not below
    [maxCalls], that is after at most [maxCalls - 1] timers when [maxCalls]
    is an integer, none is pending, whatever the performer's results, and
    from then on nothing more happens. *)
Theorem always_settles e args fuel :
  let s := drain fuel e args (handler e args) in
  (Z.of_nat (S fuel) <= 2 ^ 53 ->
   below (Z.of_nat (S fuel)) (maxCalls e) = false ->
   timers s = [] /\ forall more, drain more e args s = s) /\
  (forall N,
     N < 2 ^ 53 -> maxCalls e = int N ->
     Z.max 0 (N - 1) <= Z.of_nat fuel ->
     timers s = [] /\ forall more, drain more e args s = s).
Proof.
  intros s.
  assert (Hrest : below (Z.of_nat (S fuel)) (maxCalls e) = false ->
                  timers s = [] /\ forall more, drain more e args s = s).
  { intros Hfuel.
    assert (Hidle : timers s = []).
    { assert (Hinv : invocations (out (handler e args)) = 1%nat)
        by (unfold handler; now rewrite invoke_invocations).
      apply settles; [apply balanced_handler | apply reachable_handler | lia |].
      now rewrite Hinv. }
    split; [exact Hidle|]. intros more. now apply drain_idle. }
  split; [intros _; exact Hrest|].
  intros N HN Hmax Hfuel. apply Hrest. rewrite Hmax.
  apply below_limit; lia.
Qed.

Lemma always_settles_witness :
  let e := with_performer Readme.first
             (fun n _ => Behaviour [[VNum (int 2)]; []; [VNum (int (Z.of_nat n))]]
                           Returns) in
  let s := drain 6 e [] (handler e []) in
  timers s = [] /\ forall more, drain more e [] s = s.
Proof.
  intros e. apply (proj1 (always_settles e [] 6)); [simpl; lia | reflexivity].
Defined.

(** ** Success after some rejections *)

Section Accepted.

(** A performer that completes each of its calls exactly once, before it
    returns; the checker rejects the results of the first [j] calls and
    accepts that of the next one, and [j] is below [maxCalls]. *)
Variables (e : env) (args : list value) (res : nat -> list value) (j : nat).
Hypothesis exactly_once : forall n, performer e n args = Behaviour [res n] Returns.
Hypothesis rejected_before : forall n, (n < j)%nat -> is_true (checker e (res n)) = false.
Hypothesis accepted : is_true (checker e (res j)) = true.
Hypothesis within_limit : below (Z.of_nat j) (maxCalls e) = true.

Lemma attempt_rejected n w tr :
  (n < j)%nat ->
  invocations tr = n -> count is_failure tr = O -> count is_success tr = O ->
  retrying (S n) (invoke e args (State w (Z.of_nat n) [] tr)).
Proof.
  intros Hn Hinv Hfail Hsucc.
  rewrite invoke_once with (result := res n) by (simpl; now rewrite Hinv).
  rewrite next_retry
    by (simpl; auto;
        try (apply (below_mono _ (Z.of_nat j)); [lia | exact within_limit])).
  unfold retrying, pending, invocations in *; simpl.
  rewrite !count_app; simpl. rewrite !count_app, !count_said by reflexivity.
  simpl. repeat split; try lia. eauto.
Qed.

Lemma attempt_accepted w tr :
  invocations tr = j -> count is_failure tr = O -> count is_success tr = O ->
  let s := invoke e args (State w (Z.of_nat j) [] tr) in
  calls s = Z.of_nat j /\ invocations (out s) = S j /\ timers s = [] /\
  exists pre,
    count is_failure pre = O /\ count is_success pre = O /\
    out s = pre ++ Check (res j)
                :: said e Info Succeeded
                ++ called (success e) (Success (res j)).
Proof.
  intros Hinv Hfail Hsucc s. subst s.
  rewrite invoke_once with (result := res j) by (simpl; now rewrite Hinv).
  rewrite next_accepted by exact accepted.
  unfold invocations in *; simpl.
  rewrite !count_app; simpl.
  rewrite !count_app, count_said, count_called by reflexivity.
  repeat split; try lia.
  exists (tr ++ [Perform args]). rewrite !count_app; simpl.
  repeat split; lia.
Qed.

Lemma drain_accepts d : forall n s fuel,
  (n + d = j)%nat -> (d < fuel)%nat -> retrying n s ->
  let s' := drain fuel e args s in
  calls s' = Z.of_nat j /\ invocations (out s') = S j /\ timers s' = [] /\
  exists pre,
    count is_failure pre = O /\ count is_success pre = O /\
    out s' = pre ++ Check (res j)
                 :: said e Info Succeeded
                 ++ called (success e) (Success (res j)).
Proof.
  induction d as [|d IH]; intros n s fuel Hsum Hfuel
    ((Hcalls & Hinv & Hfail & t & Ht) & Hsucc);
    (destruct fuel as [|fuel]; [lia|]); cbn [drain]; rewrite Ht;
    unfold step; rewrite Ht; cbn [lookup list_lookup delete list_delete];
    rewrite Hcalls.
  - replace n with j in * by lia.
    pose proof (attempt_accepted (wait s) (out s) Hinv Hfail Hsucc)
      as (Hc & Hi & Hts & Hout).
    rewrite drain_idle by exact Hts. auto.
  - apply (IH (S n)); [lia | lia |].
    apply attempt_rejected; auto; lia.
Qed.

Lemma handler_accepts fuel :
  (j <= fuel)%nat ->
  accepted_at e res j (drain fuel e args (handler e args)).
Proof.
  intros Hfuel.
  assert (Hcore :
    let s := drain fuel e args (handler e args) in
    calls s = Z.of_nat j /\ invocations (out s) = S j /\ timers s = [] /\
    exists pre,
      count is_failure pre = O /\ count is_success pre = O /\
      out s = pre ++ Check (res j)
                  :: said e Info Succeeded
                  ++ called (success e) (Success (res j))).
  { unfold handler, init. destruct (decide (j = O)) as [Hj|Hj].
    - replace (State (waitSecs e) 0 [] [])
        with (State (waitSecs e) (Z.of_nat j) [] []) by (f_equal; lia).
      assert (Hinv : invocations [] = j) by now rewrite Hj.
      pose proof (attempt_accepted (waitSecs e) [] Hinv eq_refl eq_refl)
        as Hacc.
      cbn zeta in Hacc. cbn zeta.
      rewrite drain_idle by apply Hacc. exact Hacc.
    - apply (drain_accepts (j - 1) 1); [lia | lia |].
      apply (attempt_rejected O); auto; lia. }
  cbn zeta in Hcore. destruct Hcore as (Hc & Hi & Hts & Hout).
  pose proof (reachable_bookkeeping e _
                (reachable_drain e args fuel _ (reachable_handler e args)))
    as (_ & _ & Hwait & Hdelays).
  rewrite Hc in Hwait, Hdelays. unfold retries in Hwait, Hdelays.
  rewrite Nat2Z.id, retries_upto_all in Hwait, Hdelays by exact within_limit.
  unfold accepted_at. auto 10.
Qed.

End Accepted.

(** X3. When the performer completes each call once before it returns, the
    checker rejects its first [j] results and accepts the next, and [j] is
    below [maxCalls], then after [j] timers the invocation is at rest: the
    performer was called [j + 1] times, the delay before retry [i], for
    [i < j], being 1000 times [waitSecs] multiplied [i] times by
    [waitMult], each product a double; the failure callback was never
    called, and the success callback, if it is a function, was called once,
    last, with the accepted result. The counter stays at [j] and [wait] at
    [waitSecs] multiplied [j] times by [waitMult]: acceptance resets
    neither. *)
Theorem succeeds_after_rejections e args res j fuel :
  (forall n, performer e n args = Behaviour [res n] Returns) ->
  (forall n, (n < j)%nat -> is_true (checker e (res n)) = false) ->
  is_true (checker e (res j)) = true ->
  below (Z.of_nat j) (maxCalls e) = true ->
  (j <= fuel)%nat ->
  accepted_at e res j (drain fuel e args (handler e args)).
Proof. intros. now apply handler_accepts. Qed.

Lemma succeeds_after_rejections_witness :
  let e := with_performer Readme.first
             (fun n _ => Behaviour [[VNum (int (Z.of_nat n))]] Returns) in
  accepted_at e (fun n => [VNum (int (Z.of_nat n))]) 3 (drain 3 e [] (handler e [])).
Proof.
  intros e.
  apply (succeeds_after_rejections e [] (fun n => [VNum (int (Z.of_nat n))]) 3 3).
  - intros n. reflexivity.
  - intros n Hn.
    destruct n as [|[|[|n]]]; [reflexivity | reflexivity | reflexivity | lia].
  - reflexivity.
  - reflexivity.
  - lia.
Defined.

(** ** What a trace can and cannot contain *)

Lemma failure_needs_exhaustion e s :
  reachable e s -> count is_failure (out s) <> O ->
  below (calls s) (maxCalls e) = false.
Proof.
  induction 1 as [|result s _ IH|args s _ IH|x s _ IH|n s _ IH]; simpl.
  - congruence.
  - destruct (next_cases e result s) as [Hacc | [[Hrej Hlt] | [Hrej Hge]]];
      [rewrite next_accepted | rewrite next_retry | rewrite next_exhausted];
      try assumption; simpl; [| |intros _; exact Hge];
      rewrite count_app; simpl; rewrite count_app, count_said by reflexivity;
      rewrite ?count_called by reflexivity; simpl; intros Hf;
      assert (Hs : below (calls s) (maxCalls e) = false) by (apply IH; lia);
      [exact Hs|].
    now rewrite (below_refuses (calls s) (calls s + 1)) in Hlt by (lia || assumption).
  - rewrite count_app; simpl. intros Hf. apply IH. lia.
  - unfold say. destruct (truthy (logger e)); simpl; [|exact IH].
    rewrite count_app; simpl. intros Hf. apply IH. lia.
  - exact IH.
Qed.

(** X4. The failure callback is called only once the limit is reached: in
    any state in which it has been called, [calls] is not below
    [maxCalls]. And exhaustion is final: from a state with [calls] not
    below [maxCalls], whatever happens next, [calls] stays so and no
    further retry is ever scheduled. *)
Theorem failure_only_when_exhausted e s :
  reachable e s ->
  (count is_failure (out s) <> O -> below (calls s) (maxCalls e) = false) /\
  (below (calls s) (maxCalls e) = false ->
   forall args inputs,
     below (calls (run e args inputs s)) (maxCalls e) = false /\
     delays (out (run e args inputs s)) = delays (out s)).
Proof.
  intros Hr. split; [now apply failure_needs_exhaustion|].
  intros Hmax args inputs.
  pose proof (calls_run e args inputs s) as Hmono.
  split; [now apply (below_refuses (calls s))|].
  pose proof (reachable_bookkeeping e s Hr) as (Hpos & _ & _ & Hd).
  pose proof (reachable_bookkeeping e _ (reachable_run e args inputs s Hr))
    as (_ & _ & _ & Hd').
  rewrite Hd, Hd'. unfold retries. do 2 f_equal.
  apply retries_upto_frozen; [now rewrite Z2Nat.id by lia | lia].
Qed.

Lemma failure_only_when_exhausted_witness :
  let e := Readme.second in
  let s := drain 2 e [VNum (int 1); VNum (int 1)]
             (handler e [VNum (int 1); VNum (int 1)]) in
  below (calls s) (maxCalls e) = false /\
  delays (out (run e [VNum (int 1); VNum (int 1)]
                 [Complete [VNum (int 0)]; Fire 0] s))
    = delays (out s).
Proof.
  intros e s.
  destruct (failure_only_when_exhausted e s
              (reachable_drain e _ 2 _ (reachable_handler e _))) as [Honly Hfinal].
  split; [apply Honly; discriminate|].
  apply Hfinal. apply Honly. discriminate.
Defined.

(** X5. A handler is silent where it was given nothing to call: without a
    logger (any falsy value) no log call is ever made, and a success or
    failure argument that is not a function is never called, in any state
    an invocation can reach. *)
Theorem nothing_to_call_nothing_called e s :
  reachable e s ->
  (truthy (logger e) = false -> count is_log (out s) = O) /\
  (is_function (success e) = false -> count is_success (out s) = O) /\
  (is_function (failure e) = false -> count is_failure (out s) = O).
Proof.
  induction 1 as [|result s _ IH|args s _ IH|x s _ IH|n s _ IH]; simpl.
  - auto.
  - destruct IH as (Hlog & Hsucc & Hfail).
    destruct (next_trace e result s) as (l & m & tail & -> & Htail).
    rewrite !count_app; simpl. rewrite !count_app.
    rewrite (count_said is_success), (count_said is_failure) by reflexivity.
    unfold said, called in *.
    repeat split; intros Hnone; rewrite ?Hnone;
      destruct Htail as [-> | [-> | [ms ->]]];
      rewrite ?Hnone; simpl;
      repeat match goal with
             | |- context [if ?b then _ else _] => destruct b; simpl
             end;
      rewrite ?Hlog, ?Hsucc, ?Hfail by assumption; reflexivity.
  - rewrite !count_app; simpl.
    destruct IH as (Hlog & Hsucc & Hfail).
    repeat split; intros Hnone;
      rewrite ?Hlog, ?Hsucc, ?Hfail by assumption; reflexivity.
  - destruct IH as (Hlog & Hsucc & Hfail). unfold say.
    destruct (truthy (logger e)) eqn:Hlogger; simpl;
      [rewrite !count_app; simpl|]; repeat split; intros Hnone;
      try discriminate; rewrite ?Hlog, ?Hsucc, ?Hfail by assumption; reflexivity.
  - exact IH.
Qed.

Lemma nothing_to_call_nothing_called_witness :
  let e := Env Readme.is_three Readme.myFunc VUndefined (VNum (int 5))
             "myFunc" VNull (int 1) (int 2) (int 7) in
  let s := drain 6 e [VNum (int 1); VNum (int 1)] (handler e [VNum (int 1); VNum (int 1)]) in
  count is_log (out s) = O /\ count is_success (out s) = O /\
  count is_failure (out s) = O.
Proof.
  intros e s.
  destruct (nothing_to_call_nothing_called e s
              (reachable_drain e _ 6 _ (reachable_handler e _)))
    as (Hlog & Hsucc & Hfail).
  split; [apply Hlog; reflexivity|].
  split; [apply Hsucc; reflexivity | apply Hfail; reflexivity].
Defined.

(** ** What the retry warnings report *)

Lemma retry_logs_app tr1 tr2 : retry_logs (tr1 ++ tr2) = retry_logs tr1 ++ retry_logs tr2.
Proof. apply omap_app. Qed.

Lemma retry_logs_called f ev :
  is_log ev = false -> retry_logs (called f ev) = [].
Proof.
  intros Hev. unfold called. destruct (is_function f); [|reflexivity].
  destruct ev; simpl in *; congruence.
Qed.

Lemma retry_logs_next e result s :
  truthy (logger e) = true ->
  retry_logs (out (next e result s)) =
    retry_logs (out s) ++
    (if is_true (checker e result) then []
     else if below (calls s + 1) (maxCalls e) then [(calls s + 1, wait s)] else []).
Proof.
  intros Hlogger.
  destruct (next_cases e result s) as [Hacc | [[Hrej Hlt] | [Hrej Hge]]];
    [rewrite next_accepted | rewrite next_retry | rewrite next_exhausted];
    try assumption; simpl; rewrite retry_logs_app; f_equal;
    unfold said; rewrite Hlogger; simpl;
    rewrite ?retry_logs_called by reflexivity.
  - now rewrite Hacc.
  - now rewrite Hrej, Hlt.
  - now rewrite Hrej, Hge.
Qed.

Lemma retry_logs_waits e s :
  reachable e s -> truthy (logger e) = true ->
  retry_logs (out s) =
    (fun i => (Z.of_nat i + 1, waits (waitSecs e) (waitMult e) i))
      <$> seq 0 (retries e (calls s)).
Proof.
  intros Hr Hlogger.
  induction Hr as [|result s Hs IH|args s _ IH|x s _ IH|n s _ IH].
  - reflexivity.
  - pose proof (reachable_bookkeeping e s Hs) as (Hpos & _ & Hwait & _).
    rewrite retry_logs_next, IH by assumption.
    destruct (next_cases e result s) as [Hacc | [[Hrej Hlt] | [Hrej Hge]]].
    + rewrite Hacc, next_accepted, app_nil_r by assumption. reflexivity.
    + rewrite Hrej, Hlt, next_retry by assumption. simpl.
      assert (Hall : retries e (calls s) = Z.to_nat (calls s)).
      { apply retries_upto_all. rewrite Z2Nat.id by lia.
        apply (below_mono _ (calls s + 1)); [lia | exact Hlt]. }
      rewrite retries_succ, Hlt, Hall by lia.
      change (1 + Z.to_nat (calls s))%nat with (S (Z.to_nat (calls s))).
      rewrite seq_S, fmap_app. simpl.
      rewrite Z2Nat.id by lia. now rewrite Hwait, Hall.
    + rewrite Hrej, Hge, next_exhausted by assumption. simpl.
      rewrite app_nil_r. now rewrite retries_succ, Hge by lia.
  - simpl. rewrite retry_logs_app, IH. simpl. now rewrite app_nil_r.
  - unfold say. rewrite Hlogger. simpl.
    rewrite retry_logs_app, IH. simpl. now rewrite app_nil_r.
  - exact IH.
Qed.

(** X6. With a logger, the retry warnings of an invocation are, in order,
    "1 failure", "2 failures", ... the n-th reporting the value [wait] has
    then: [waitSecs] multiplied [n - 1] times by [waitMult], each product
    a double. There are as many as timers scheduled, and the wait each one
    reports, in seconds, times 1000 is the delay handed to [setTimeout]
    right after it. *)
Theorem warnings_report_the_schedule e s :
  reachable e s ->
  truthy (logger e) = true ->
  retry_logs (out s) =
    (fun i => (Z.of_nat i + 1, waits (waitSecs e) (waitMult e) i))
      <$> seq 0 (retries e (calls s)) /\
  delays (out s) = (fun cw => mul cw.2 (int 1000)) <$> retry_logs (out s).
Proof.
  intros Hr Hlogger.
  pose proof (retry_logs_waits e s Hr Hlogger) as Hlogs.
  split; [exact Hlogs|].
  pose proof (reachable_bookkeeping e s Hr) as (_ & _ & _ & Hd).
  rewrite Hd, Hlogs, <- list_fmap_compose. reflexivity.
Qed.

Lemma warnings_report_the_schedule_witness :
  let e := Readme.first in
  let s := drain 6 e [VNum (int 1); VNum (int 1)]
             (handler e [VNum (int 1); VNum (int 1)]) in
  retry_logs (out s) =
    (fun i => (Z.of_nat i + 1, waits (waitSecs e) (waitMult e) i))
      <$> seq 0 (retries e (calls s)) /\
  delays (out s) = (fun cw => mul cw.2 (int 1000)) <$> retry_logs (out s).
Proof.
  intros e s.
  apply (warnings_report_the_schedule e s);
    [apply reachable_drain, reachable_handler | reflexivity].
Defined.

(** With [waitSecs] 0.1 and [waitMult] 3 the third warning reports the
    double 0.9000000000000001, the product of the doubles 0.1, 3 and 3,
    which is not the double nearest to nine tenths. *)
Example fractional_warning :
  let e := Env (fun _ => VBool false) (fun _ _ => Behaviour [[]] Returns)
             VUndefined VUndefined "perform" (VObj []) tenth (int 3) (int 7) in
  let s := drain 2 e [] (handler e []) in
  (retry_logs (out s)).*2 !! 2%nat = Some (S754_finite false 8106479329266894 (-53)) /\
  SFdiv 53 1024 (int 9) (int 10) = S754_finite false 8106479329266893 (-53).
Proof. vm_compute. split; reflexivity. Qed.

(** ** The time spent waiting *)

Lemma total_app ms ns : total (ms ++ ns) = total ms + total ns.
Proof.
  unfold total. induction ms as [|m ms IH]; simpl; [reflexivity|].
  rewrite IH. ring.
Qed.

Lemma total_millis a b r :
  (b - 1) * total (millis a b r) = 1000 * a * (b ^ Z.of_nat r - 1).
Proof.
  unfold millis. induction r as [|r IH].
  - change (Z.of_nat 0) with 0. rewrite Z.pow_0_r. simpl. ring.
  - rewrite seq_S, fmap_app, total_app, Z.mul_add_distr_l, IH.
    simpl. rewrite Nat2Z.inj_succ, Z.pow_succ_r by lia. ring.
Qed.

Lemma total_constant a r : total (millis a 1 r) = 1000 * a * Z.of_nat r.
Proof.
  unfold millis. induction r as [|r IH]; [simpl; ring|].
  rewrite seq_S, fmap_app, total_app, IH. simpl.
  rewrite Z.pow_1_l by lia. lia.
Qed.

(** X7. When [waitSecs] and [waitMult] are positive integers [a] and [b]
    and the delays stay below 2^53 ms, the delays an invocation has
    scheduled are exactly [1000 * a * b^i] ms and add up to the geometric
    sum: with [r] retries scheduled so far,
    [(b - 1) * total = 1000 * a * (b^r - 1)], and [1000 * a * r] when [b]
    is 1. With the defaults 1, 2 and 7 an exhausted invocation has waited
    63 seconds in all, the "about a minute" of the source; with the
    settings 2, 1 and 3 of the README's second example, 4 seconds. *)
Theorem total_wait e s a b :
  reachable e s ->
  0 < a -> 0 < b -> waitSecs e = int a -> waitMult e = int b ->
  let r := retries e (calls s) in
  1000 * (a * b ^ Z.of_nat r) < 2 ^ 53 ->
  delays (out s) = int <$> millis a b r /\
  (b - 1) * total (millis a b r) = 1000 * a * (b ^ Z.of_nat r - 1) /\
  (b = 1 -> total (millis a b r) = 1000 * a * Z.of_nat r) /\
  (a = 1 -> b = 2 -> maxCalls e = int 7 -> 7 <= calls s ->
     total (millis a b r) = 63000) /\
  (a = 2 -> b = 1 -> maxCalls e = int 3 -> 3 <= calls s ->
     total (millis a b r) = 4000).
Proof.
  intros Hr Ha Hb Hw Hm r Hbound.
  pose proof (reachable_bookkeeping e s Hr) as (Hpos & _ & _ & Hd).
  pose proof (total_millis a b r) as Hsum.
  split; [|split; [exact Hsum|split; [|split]]].
  - rewrite Hd. fold r. unfold millis. rewrite <- list_fmap_compose.
    apply fmap_seq_ext. intros i Hi. simpl.
    apply backoff_int; try assumption.
    assert (b ^ Z.of_nat i <= b ^ Z.of_nat r)
      by (apply Z.pow_le_mono_r; lia).
    nia.
  - intros ->. apply total_constant.
  - intros -> -> Hmax Hcalls.
    assert (Hsix : r = 6%nat).
    { unfold r, retries. rewrite Hmax.
      now rewrite (retries_upto_frozen (int 7) 7) by (reflexivity || lia). }
    rewrite Hsix. reflexivity.
  - intros -> -> Hmax Hcalls.
    assert (Htwo : r = 2%nat).
    { unfold r, retries. rewrite Hmax.
      now rewrite (retries_upto_frozen (int 3) 3) by (reflexivity || lia). }
    rewrite Htwo. reflexivity.
Qed.

Lemma total_wait_witness :
  let e := Readme.first in
  let s := drain 6 e [VNum (int 1); VNum (int 1)]
             (handler e [VNum (int 1); VNum (int 1)]) in
  delays (out s) = int <$> millis 1 2 (retries e (calls s)) /\
  total (millis 1 2 (retries e (calls s))) = 63000.
Proof.
  intros e s.
  destruct (total_wait e s 1 2 (reachable_drain e _ 6 _ (reachable_handler e _)))
    as (Hdelays & _ & _ & Hminute & _);
    [lia | lia | reflexivity | reflexivity | vm_compute; reflexivity |].
  split; [exact Hdelays|].
  apply Hminute; [reflexivity | reflexivity | reflexivity | vm_compute; discriminate].
Defined.

(** ** Resolved settings *)

Lemma number_or_default n v d :
  VNum n = js_or v (VNum d) -> nonzero d = true -> nonzero n = true.
Proof.
  unfold js_or. destruct (truthy v) eqn:Hv; intros Heq Hd.
  - subst v. exact Hv.
  - congruence.
Qed.

(** X8. No setting of a handler made by [ntil] is falsy: [waitSecs],
    [waitMult] and [maxCalls] are the option when it is a number other
    than 0, -0 and NaN, and the default otherwise. So every invocation
    starts with a [wait] that is not zero. *)
Theorem settings_are_never_zero call conduct c p s f o h e :
  handler_of call conduct (ntil c p s f o h) = Some e ->
  let opts := js_or o (VObj []) in
  nonzero (waitSecs e) = true /\ nonzero (waitMult e) = true /\
  nonzero (maxCalls e) = true /\
  VNum (waitSecs e) = js_or (get opts "waitSecs") (VNum (int 1)) /\
  VNum (waitMult e) = js_or (get opts "waitMult") (VNum (int 2)) /\
  VNum (maxCalls e) = js_or (get opts "maxCalls") (VNum (int 7)) /\
  forall args, nonzero (wait (init e)) = true /\
               exists tr, out (handler e args) = Perform args :: tr.
Proof.
  intros He opts.
  pose proof (handler_of_settings _ _ _ _ _ _ _ _ _ He)
    as (Hsecs & Hmult & Hmax & _). fold opts in Hsecs, Hmult, Hmax.
  pose proof (number_or_default _ _ _ Hsecs eq_refl) as Hs.
  pose proof (number_or_default _ _ _ Hmult eq_refl) as Hm.
  pose proof (number_or_default _ _ _ Hmax eq_refl) as Hk.
  repeat split; try assumption.
  destruct (invoke_out e args (init e)) as [tr Htr]. now exists tr.
Qed.

Lemma settings_are_never_zero_witness :
  let e := Env Readme.is_three Readme.myFunc VUndefined VUndefined
             "myFunc" VUndefined (int 1) (int 5) (int 7) in
  nonzero (waitSecs e) = true /\ nonzero (waitMult e) = true /\
  nonzero (maxCalls e) = true.
Proof.
  intros e.
  pose proof (settings_are_never_zero
           (fun _ => Readme.is_three) (fun _ => Readme.myFunc)
           (VFun (Func "check" 0)) (VFun (Func "myFunc" 1))
           VUndefined VUndefined
           (VObj [("waitSecs"%string, VNum (int 0));
                  ("waitMult"%string, VNum (int 5))]) [] e eq_refl)
    as (Hs & Hm & Hk & _).
  repeat split; assumption.
Defined.

(** Later on [wait] can become zero all the same: the product of two
    truthy doubles can underflow. With [waitSecs] and [waitMult] both
    2^-600 the second retry is scheduled with a delay of 0. *)
Example wait_underflows :
  let e := Cases.rejecting Cases.tiny Cases.tiny (int 7) in
  let s := run e [] [Fire 0] (handler e []) in
  nonzero (waitSecs e) = true /\ nonzero (waitMult e) = true /\
  wait s = S754_zero false /\
  delays (out s) !! 1%nat = Some (S754_zero false).
Proof. vm_compute. repeat split; reflexivity. Qed.

(** X9. The name a handler logs under is [opts.name] when that is truthy,
    else the performer's own name when it has one, else the literal
    ["anonymous function"]; it is never empty. *)
Theorem name_resolution c fp s f o h :
  is_function c = true ->
  exists cl,
    ntil c (VFun fp) s f o h = (h, Handler cl) /\
    (truthy (get (js_or o (VObj [])) "name") = true ->
       cl_name cl = get (js_or o (VObj [])) "name") /\
    (truthy (get (js_or o (VObj [])) "name") = false -> fname fp <> ""%string ->
       cl_name cl = VStr (fname fp)) /\
    (truthy (get (js_or o (VObj [])) "name") = false -> fname fp = ""%string ->
       cl_name cl = VStr "anonymous function") /\
    truthy (cl_name cl) = true.
Proof.
  intros Hc. unfold ntil. rewrite Hc. cbn [negb is_function typeof String.eqb].
  eexists. split; [reflexivity|]. cbn [cl_name get].
  rewrite String.eqb_refl. unfold js_or.
  destruct (truthy (get (if truthy o then o else VObj []) "name")) eqn:Hname;
    cbn [truthy].
  - repeat split; try congruence.
  - destruct (String.eqb_spec (fname fp) "") as [Hempty|Hnamed]; cbn [negb].
    + repeat split; congruence.
    + repeat split; try congruence. cbn [truthy].
      destruct (String.eqb_spec (fname fp) ""); [congruence | reflexivity].
Qed.

Lemma name_resolution_witness :
  exists cl,
    ntil (VFun (Func "check" 0)) (VFun (Func "" 1)) VUndefined VUndefined
      (VObj [("name"%string, VStr "")]) [] = ([], Handler cl) /\
    cl_name cl = VStr "anonymous function".
Proof.
  destruct (name_resolution (VFun (Func "check" 0)) (Func "" 1)
              VUndefined VUndefined (VObj [("name"%string, VStr "")]) [] eq_refl)
    as (cl & Hntil & _ & _ & Hanon & _).
  exists cl. split; [exact Hntil|]. apply Hanon; reflexivity.
Defined.

(** X10. Options that are [undefined], [null], a boolean, a number or a
    string are accepted without complaint and mean "no options": the
    handler has no logger, the defaults 1, 2 and 7, and the performer's
    name (or ["anonymous function"]). *)
Theorem primitive_options_are_defaults c fp s f o h :
  is_function c = true ->
  is_primitive o = true ->
  ntil c (VFun fp) s f o h =
    (h, Handler (Closure c (VFun fp) s f
                   (js_or (VStr (fname fp)) (VStr "anonymous function"))
                   VUndefined (VNum (int 1)) (VNum (int 2)) (VNum (int 7)))).
Proof.
  intros Hc Ho. unfold ntil. rewrite Hc.
  destruct o as [| |[]|n|x| |]; try discriminate; unfold js_or; simpl;
    try reflexivity.
  - now destruct (nonzero n).
  - now destruct (String.eqb x "").
Qed.

Lemma primitive_options_are_defaults_witness :
  ntil (VFun (Func "check" 0)) (VFun (Func "myFunc" 1)) VUndefined VUndefined
    (VStr "fast") [] =
    ([], Handler (Closure (VFun (Func "check" 0)) (VFun (Func "myFunc" 1))
                    VUndefined VUndefined (VStr "myFunc")
                    VUndefined (VNum (int 1)) (VNum (int 2)) (VNum (int 7)))).
Proof.
  apply (primitive_options_are_defaults (VFun (Func "check" 0)) (Func "myFunc" 1));
    reflexivity.
Defined.

(** ** Builders in the store *)

Lemma lookup_older (h : heap) ch b :
  is_Some (h !! b) -> (h ++ [ch]) !! b = h !! b.
Proof. intros [x Hx]. apply lookup_app_l. now apply lookup_lt_Some in Hx. Qed.

(** X11. [func()] on a builder whose performer slot holds no function
    (never set, or set to something else) returns no handler and throws
    nothing: it makes a new builder with the same checker, whose options
    are the value of the performer slot and whose callbacks are unset. The
    options, success and failure callbacks set on the first builder are not
    carried over, and the first builder is left as it was. *)
Theorem func_without_performer (h : heap) b ch :
  h !! b = Some ch ->
  is_function (chain_checker ch) = true ->
  is_function (chain_perform ch) = false ->
  exists h',
    Chain.func b h = Some (h', Builder (length h)) /\
    h' !! length h
      = Some (MkChain (chain_checker ch) (chain_perform ch)
                VUndefined VUndefined VUndefined) /\
    h' !! b = Some ch /\
    length h' = S (length h).
Proof.
  intros Hb Hc Hp. unfold Chain.func. rewrite Hb.
  unfold ntil, new_chain. rewrite Hc, Hp. cbn [negb].
  exists (h ++ [MkChain (chain_checker ch) (chain_perform ch)
                  VUndefined VUndefined VUndefined]).
  split; [reflexivity|].
  split; [apply lookup_last|]. split.
  - rewrite lookup_older; eauto.
  - rewrite length_app. simpl. lia.
Qed.

Lemma func_without_performer_witness :
  let c := VFun (Func "check" 0) in
  let o := VObj [("maxCalls"%string, VNum (int 3))] in
  let ch := MkChain c o VUndefined (Readme.callback "done") VUndefined in
  exists h',
    Chain.func O [ch] = Some (h', Builder 1%nat) /\
    h' !! 1%nat = Some (MkChain c VUndefined VUndefined VUndefined VUndefined) /\
    h' !! O = Some ch /\
    length h' = 2%nat.
Proof.
  intros c o ch.
  apply (func_without_performer [ch] O ch); reflexivity.
Defined.

(** X12. A setter changes the one builder it is called on, in the one slot
    it names: the store keeps its size, every other builder is as it was,
    and the builder's checker is as it was. [func()] never changes a
    builder that exists: at most it adds one. *)
Theorem setters_touch_one_builder this st (h : heap) :
  length (call_setter this st h).1 = length h /\
  (call_setter this st h).1 !! this = (fun ch => write ch st) <$> h !! this /\
  (forall b, b <> this -> (call_setter this st h).1 !! b = h !! b) /\
  (forall ch, h !! this = Some ch ->
     chain_checker (write ch st) = chain_checker ch) /\
  (forall h' r b, Chain.func this h = Some (h', r) ->
     is_Some (h !! b) -> h' !! b = h !! b).
Proof.
  split; [|split; [|split; [|split]]].
  - destruct st; simpl; apply length_alter.
  - destruct st; simpl; apply list_lookup_alter_eq.
  - intros b Hne. destruct st; simpl; now apply list_lookup_alter_ne.
  - intros ch _. now destruct st.
  - intros h' r b Hfunc Hb. unfold Chain.func in Hfunc.
    destruct (h !! this) as [ch|]; [|discriminate].
    unfold ntil, new_chain in Hfunc.
    destruct (negb (is_function (chain_checker ch)));
      [now injection Hfunc as <- _|].
    destruct (negb (is_function (chain_perform ch)));
      [|now injection Hfunc as <- _].
    injection Hfunc as <- _. now apply lookup_older.
Qed.

Lemma setters_touch_one_builder_witness :
  let c := VFun (Func "check" 0) in
  let a := MkChain c VUndefined VUndefined VUndefined VUndefined in
  let b := MkChain c (VNum (int 1)) VUndefined VUndefined VUndefined in
  (call_setter 1%nat (Exec (VFun (Func "myFunc" 1))) [a; b]).1 !! O = [a; b] !! O.
Proof.
  intros c a b.
  apply (setters_touch_one_builder 1%nat (Exec (VFun (Func "myFunc" 1))) [a; b]).
  discriminate.
Defined.

(** X13. Once [ntil(checker)] has returned a builder, no chain of setters
    can make [func()] throw or change the checker: the result is a handler
    with that checker when the last value given to [exec] is a function,
    and otherwise a second builder with that checker. *)
Theorem builder_checker_is_fixed c cs h :
  is_function c = true ->
  exists h' r,
    fluent c cs h = Some (h', r) /\
    (forall x, r <> Thrown x) /\
    (exists ch, h' !! length h = Some ch /\ chain_checker ch = c) /\
    (is_function (slot pick_exec VUndefined cs) = true ->
       exists cl, r = Handler cl /\ cl_checker cl = c) /\
    (is_function (slot pick_exec VUndefined cs) = false ->
       r = Builder (S (length h)) /\
       exists ch, h' !! S (length h) = Some ch /\ chain_checker ch = c).
Proof.
  intros Hc. rewrite fluent_slots by assumption.
  unfold ntil, new_chain. rewrite Hc. cbn [negb].
  set (ch := fold_left write cs _).
  assert (Hch : chain_checker ch = c) by (unfold ch; now rewrite write_slots).
  destruct (is_function (slot pick_exec VUndefined cs)) eqn:Hp; cbn [negb];
    do 2 eexists; (split; [reflexivity|]); (split; [discriminate|]).
  - split; [exists ch; split; [apply lookup_last | exact Hch]|].
    split; [eauto | discriminate].
  - split.
    + exists ch. split; [|exact Hch].
      rewrite lookup_older; rewrite lookup_last; eauto.
    + split; [discriminate|]. intros _.
      rewrite length_app. simpl. replace (length h + 1)%nat with (S (length h)) by lia.
      split; [reflexivity|].
      exists (MkChain c (slot pick_exec VUndefined cs)
                VUndefined VUndefined VUndefined).
      split; [|reflexivity].
      replace (S (length h)) with (length (h ++ [ch])) by (rewrite length_app; simpl; lia).
      apply lookup_last.
Qed.

Lemma builder_checker_is_fixed_witness :
  let c := VFun (Func "check" 0) in
  exists h' r,
    fluent c [Opts (VNum (int 3)); Exec VNull; Done c] [] = Some (h', r) /\
    (forall x, r <> Thrown x).
Proof.
  intros c.
  destruct (builder_checker_is_fixed c [Opts (VNum (int 3)); Exec VNull; Done c] [] eq_refl)
    as (h' & r & Hfluent & Hthrown & _).
  exists h', r. split; assumption.
Defined.

(** ** Completing within the call or later *)

Lemma invoke_at_once e args res s :
  invoke (completing_at_once e res) args s
  = next e (res (invocations (out s))) (emit (Perform args) s).
Proof. reflexivity. Qed.

Lemma invoke_later e args s :
  invoke (completing_later e) args s = emit (Perform args) s.
Proof. reflexivity. Qed.

Lemma drain_succ e args fuel : forall s,
  drain (S fuel) e args s = drain 1 e args (drain fuel e args s).
Proof.
  induction fuel as [|fuel IH]; intros s; [reflexivity|].
  cbn [drain] in *. destruct (timers s) as [|t ts] eqn:Hts.
  - now rewrite Hts.
  - specialize (IH (step e args s (Fire 0))). exact IH.
Qed.

Lemma awaiting_run e args res j :
  awaiting e args res j
  = run (completing_later e) args (later res j) (handler (completing_later e) args).
Proof.
  induction j as [|j IH]; [reflexivity|].
  cbn [awaiting later]. unfold run in *. rewrite fold_left_app, <- IH.
  reflexivity.
Qed.

Section Later.

Variables (e : env) (args : list value) (res : nat -> list value).

Lemma awaiting_state j :
  (forall i, (i < j)%nat -> is_true (checker e (res i)) = false) ->
  below (Z.of_nat j) (maxCalls e) = true ->
  calls (awaiting e args res j) = Z.of_nat j /\
  timers (awaiting e args res j) = [] /\
  invocations (out (awaiting e args res j)) = S j.
Proof.
  induction j as [|j IH]; intros Hrej Hlt.
  - repeat split; reflexivity.
  - assert (Hlt' : below (Z.of_nat j) (maxCalls e) = true)
      by (apply (below_mono _ (Z.of_nat (S j))); [lia | exact Hlt]).
    destruct IH as (Hc & Hts & Hinv); [intros i Hi; apply Hrej; lia | exact Hlt' |].
    assert (Hnext : below (calls (awaiting e args res j) + 1) (maxCalls e) = true)
      by (rewrite Hc; now replace (Z.of_nat j + 1) with (Z.of_nat (S j)) by lia).
    cbn [awaiting].
    rewrite next_retry by (try apply Hrej; (lia || exact Hnext)).
    rewrite Hts. unfold step. cbn [timers app lookup list_lookup].
    rewrite invoke_later. unfold emit, invocations in *. cbn.
    rewrite !count_app. cbn. rewrite !count_app, count_said by reflexivity.
    cbn. rewrite Hc, Hinv. repeat split; lia.
Qed.

Lemma drain_at_once j :
  (forall i, (i < j)%nat -> is_true (checker e (res i)) = false) ->
  below (Z.of_nat j) (maxCalls e) = true ->
  drain j (completing_at_once e res) args (handler (completing_at_once e res) args)
  = next e (res j) (awaiting e args res j).
Proof.
  induction j as [|j IH]; intros Hrej Hlt; [reflexivity|].
  assert (Hlt' : below (Z.of_nat j) (maxCalls e) = true)
    by (apply (below_mono _ (Z.of_nat (S j))); [lia | exact Hlt]).
  rewrite drain_succ, IH by (try (intros i Hi; apply Hrej); (lia || exact Hlt')).
  destruct (awaiting_state j) as (Hc & Hts & Hinv);
    [intros i Hi; apply Hrej; lia | exact Hlt' |].
  assert (Hnext : below (calls (awaiting e args res j) + 1) (maxCalls e) = true)
    by (rewrite Hc; now replace (Z.of_nat j + 1) with (Z.of_nat (S j)) by lia).
  cbn [awaiting].
  rewrite next_retry by (try apply Hrej; (lia || exact Hnext)).
  rewrite Hts. cbn [drain timers app]. unfold step.
  cbn [timers lookup list_lookup].
  rewrite invoke_at_once, invoke_later. f_equal. f_equal.
  unfold invocations in *. cbn. rewrite count_app. cbn.
  rewrite count_app, count_said by reflexivity. cbn. lia.
Qed.

End Later.

(** X14. It makes no difference whether the performer calls [next] before
    it returns or later. If it completes each call exactly once, the
    results of its first [k] calls are rejected and [k] is below
    [maxCalls], then the invocation in which each result arrives later and
    is followed by the firing of the timer it set, up to the arrival of
    the result of call [k], is in the very state, trace included, of the
    invocation in which each result is given within the call and [k]
    timers fire. *)
Theorem completing_later_is_the_same e args res k :
  (forall i, (i < k)%nat -> is_true (checker e (res i)) = false) ->
  below (Z.of_nat k) (maxCalls e) = true ->
  run (completing_later e) args (later res k ++ [Complete (res k)])
    (handler (completing_later e) args)
  = drain k (completing_at_once e res) args
      (handler (completing_at_once e res) args).
Proof.
  intros Hrej Hlt. rewrite drain_at_once, awaiting_run by assumption.
  unfold run. rewrite fold_left_app. reflexivity.
Qed.

Lemma completing_later_is_the_same_witness :
  let e := Readme.first in
  let res := fun _ : nat => [VNum (int 2)] in
  run (completing_later e) [] (later res 6%nat ++ [Complete (res 6%nat)])
    (handler (completing_later e) [])
  = drain 6%nat (completing_at_once e res) []
      (handler (completing_at_once e res) []).
Proof.
  intros e res.
  apply (completing_later_is_the_same e [] res 6%nat).
  - intros i _. reflexivity.
  - reflexivity.
Defined.
